(** * BasicWaveSynth: resampler, ADSR envelope and polyphonic voice pool

    A shallow embedding of [Resample.cpp], [ADSR.cpp] and
    [WavetableSynth.cpp], with the buffer operations of [AudioData.cpp]
    and the message dispatch of [MidiIn.cpp].  The C++ [float] and
    [double] quantities are idealised as real numbers (rounding,
    infinities and NaN are out of the model); [int], [short], [unsigned]
    and [size_t] quantities are integers of [Z]; a read of the sample
    buffer outside its bounds is [None]. *)

From Stdlib Require Import ZArith List Bool Lia Reals Lra String.
From stdpp Require Import base list.

Open Scope R_scope.

(** ** Numeric helpers *)

(** Comparisons of two floating values used as C++ conditions. *)
Definition Rltb (x y : R) : bool := if Rlt_dec x y then true else false.
Definition Rleb (x y : R) : bool := if Rle_dec x y then true else false.
Definition Reqb (x y : R) : bool := if Req_dec_T x y then true else false.

(** The conversion [(int)x] / [(unsigned)x] of a floating value: truncation
    toward zero (within the range of the target type). *)
Definition trunc (x : R) : Z :=
  if Rle_dec 0 x then Zfloor x else (- Zfloor (- x))%Z.

(** Wrap-around of 32-bit [unsigned] arithmetic. *)
Definition wrap32 (z : Z) : Z := (z mod 2 ^ 32)%Z.

(** [n] applications of a per-sample step. *)
Fixpoint ticks {A : Type} (step : A -> A) (n : nat) (a : A) : A :=
  match n with
  | O => a
  | S k => step (ticks step k a)
  end.

(** ** ADSR.cpp *)

Module ADSR.

Inductive Mode : Set := ATTACK | DECAY | SUSTAIN | RELEASE.

Record t : Type := mk {
  current_mode : Mode;
  envelope : R;
  sustain_level : R;
  attack_increment : R;
  decay_factor : R;
  release_factor : R
}.

Definition set_envelope (v : R) (e : t) : t :=
  mk (current_mode e) v (sustain_level e) (attack_increment e)
     (decay_factor e) (release_factor e).

Definition set_mode (m : Mode) (e : t) : t :=
  mk m (envelope e) (sustain_level e) (attack_increment e)
     (decay_factor e) (release_factor e).

(** [EXP_DECAY = (float)(M_LN10 * 96/20)] *)
Definition EXP_DECAY : R := ln 10 * 96 / 20.

(** [linearDegradeRate(t, R, d, s)] *)
Definition linearDegradeRate (t0 rate d s : R) : R :=
  if Reqb t0 0 || Reqb rate 0 then 1 else 1 / (t0 * rate).

(** [expDegradeRate(t, R)]; [pow(M_E, x)] is [Rpower (exp 1) x]. *)
Definition expDegradeRate (t0 rate : R) : R :=
  if Reqb t0 0 then 0
  else if Reqb rate 0 then 1
  else let k := EXP_DECAY / t0 in Rpower (exp 1) (- k / rate).

(** [ADSR::ADSR(a, d, s, r, R)] *)
Definition ctor (a d s r rate : R) : t :=
  {| current_mode := ATTACK;
     envelope := if Reqb a 0 then 1 else 0;
     sustain_level := s;
     attack_increment := linearDegradeRate a rate d s;
     decay_factor := expDegradeRate d rate;
     release_factor := expDegradeRate r rate |}.

Definition sustainOff (e : t) : t := set_mode RELEASE e.

Definition reset (e : t) : t := set_mode ATTACK (set_envelope 0 e).

Definition output (e : t) : R := envelope e.

Definition mode (e : t) : Mode := current_mode e.

Definition next (e : t) : t :=
  match current_mode e with
  | ATTACK =>
      let e1 := set_envelope (envelope e + attack_increment e) e in
      if Rleb 1 (envelope e1)
      then set_mode DECAY (set_envelope 1 e1)
      else e1
  | DECAY =>
      let e1 := set_envelope (envelope e * decay_factor e) e in
      if Rleb (envelope e1) (sustain_level e1)
      then set_envelope (sustain_level e1) e1
      else e1
  | SUSTAIN => e
  | RELEASE => set_envelope (envelope e * release_factor e) e
  end.

(** The same rate computations with every division checked: [None] is a
    division whose divisor is zero. *)
Definition checked_div (x y : R) : option R :=
  if Reqb y 0 then None else Some (x / y).

Definition linearDegradeRate_checked (t0 rate d s : R) : option R :=
  if Reqb t0 0 || Reqb rate 0 then Some 1 else checked_div 1 (t0 * rate).

Definition expDegradeRate_checked (t0 rate : R) : option R :=
  if Reqb t0 0 then Some 0
  else if Reqb rate 0 then Some 1
  else match checked_div EXP_DECAY t0 with
       | None => None
       | Some k =>
           match checked_div (- k) rate with
           | None => None
           | Some x => Some (Rpower (exp 1) x)
           end
       end.

End ADSR.

(** ** AudioData: the sample source *)

Module AudioData.

(** The members read through [data()], [frames()], [rate()] and
    [channels()]; [fdata] holds [frame_count * channel_count] interleaved
    samples. *)
Record t : Type := mk {
  fdata : list R;
  frame_count : Z;
  sampling_rate : Z;
  channel_count : Z
}.

Definition frames (ad : t) : Z := frame_count ad.
Definition channels (ad : t) : Z := channel_count ad.
Definition rate (ad : t) : Z := sampling_rate ad.

(** [data()[k]]: [None] when [k] lies outside the buffer. *)
Definition data (ad : t) (k : Z) : option R :=
  if (k <? 0)%Z then None else fdata ad !! Z.to_nat k.

End AudioData.

(** ** Resample.cpp *)

Module Resample.

Record t : Type := mk {
  audio_data : AudioData.t;
  ichannel : Z;
  findex : R;
  speedup : R;
  multiplier : R;
  iloop_bgn : Z;
  iloop_end : Z
}.

(** [OCTAVE_CENTILES = 1.0 / 1200.0] *)
Definition OCTAVE_CENTILES : R := 1 / 1200.

(** [Resample::Resample(ad_ptr, channel, factor, loop_bgn, loop_end)] *)
Definition ctor (ad : AudioData.t) (channel : Z) (factor : R)
    (loop_bgn loop_end : Z) : t :=
  {| audio_data := ad; ichannel := channel; findex := 0.8;
     speedup := factor; multiplier := factor;
     iloop_bgn := loop_bgn; iloop_end := loop_end |}.

(** The position read by [output]: the pair of frames [i], [e] and the
    fractional position [index] after the optional fold into the loop. *)
Definition position (r : t) : R * Z * Z :=
  let i := trunc (findex r) in
  let e := (i + 1)%Z in
  let index := findex r in
  if (iloop_bgn r <? iloop_end r)%Z && Rltb (IZR (iloop_end r)) (findex r)
  then
    let interval := (iloop_end r - iloop_bgn r)%Z in
    let iters := (findex r - IZR (iloop_bgn r)) / IZR interval in
    let interval := wrap32 (trunc iters * interval) in
    let index := findex r - IZR interval in
    let i := trunc index in
    let e := if (AudioData.frames (audio_data r) =? i)%Z
             then iloop_bgn r else (i + 1)%Z in
    (index, i, e)
  else (index, i, e).

(** [Resample::output()] *)
Definition output (r : t) : option R :=
  let ad := audio_data r in
  let channels := AudioData.channels ad in
  let '(index, i, e) := position r in
  if (e <? AudioData.frames ad)%Z
  then
    let t1 := index - IZR i in
    let t0 := 1 - t1 in
    let i := (i * channels + ichannel r)%Z in
    let e := (e * channels + ichannel r)%Z in
    match AudioData.data ad i, AudioData.data ad e with
    | Some init, Some end_ => Some (t0 * init + end_ * t1)
    | _, _ => None
    end
  else if (AudioData.frames ad =? i)%Z && Rltb (findex r - IZR i) 0.001
  then AudioData.data ad (i * channels + ichannel r)%Z
  else Some 0.

(** [Resample::next()] *)
Definition next (r : t) : t :=
  mk (audio_data r) (ichannel r) (findex r + speedup r) (speedup r)
     (multiplier r) (iloop_bgn r) (iloop_end r).

(** [Resample::pitchOffset(cents)] *)
Definition pitchOffset (cents : R) (r : t) : t :=
  let pitch := Rpower 2 (cents * OCTAVE_CENTILES) in
  mk (audio_data r) (ichannel r) (findex r) (multiplier r * pitch)
     (multiplier r) (iloop_bgn r) (iloop_end r).

(** [Resample::reset()] *)
Definition reset (r : t) : t :=
  mk (audio_data r) (ichannel r) 0 (speedup r)
     (multiplier r) (iloop_bgn r) (iloop_end r).

(** Model helper: the resampler observed at another index. *)
Definition set_findex (x : R) (r : t) : t :=
  mk (audio_data r) (ichannel r) x (speedup r)
     (multiplier r) (iloop_bgn r) (iloop_end r).

(** The number of whole loop lengths between [loop_bgn] and the index,
    and the index folded back by as many. *)
Definition loops (r : t) : Z :=
  Zfloor ((findex r - IZR (iloop_bgn r)) / IZR (iloop_end r - iloop_bgn r)).

Definition folded (r : t) : R :=
  findex r - IZR (loops r * (iloop_end r - iloop_bgn r)).

(** What [output] computes from the folded index. *)
Definition folded_output (r : t) : option R :=
  let ad := audio_data r in
  let channels := AudioData.channels ad in
  let i := Zfloor (folded r) in
  let e := if (AudioData.frames ad =? i)%Z
           then iloop_bgn r else (i + 1)%Z in
  if (e <? AudioData.frames ad)%Z
  then
    let t1 := folded r - IZR i in
    let t0 := 1 - t1 in
    match AudioData.data ad (i * channels + ichannel r)%Z,
          AudioData.data ad (e * channels + ichannel r)%Z with
    | Some init, Some end_ => Some (t0 * init + end_ * t1)
    | _, _ => None
    end
  else Some 0.

(** [x mod L] on a real [x] and a positive integer [L]. *)
Definition Rmod (x : R) (L : Z) : R := x - IZR (Zfloor (x / IZR L) * L).

(** The looping output in the words of the specification: interpolate at
    [loop_begin + ((index - loop_begin) mod (loop_end - loop_begin))],
    the upper frame wrapping to [loop_begin] when it reaches the frame
    count of the source. *)
Definition claimed_loop_output (r : t) : option R :=
  let ad := audio_data r in
  let channels := AudioData.channels ad in
  let pos :=
    IZR (iloop_bgn r)
    + Rmod (findex r - IZR (iloop_bgn r)) (iloop_end r - iloop_bgn r) in
  let i := Zfloor pos in
  let e := if (i + 1 =? AudioData.frames ad)%Z
           then iloop_bgn r else (i + 1)%Z in
  let t1 := pos - IZR i in
  let t0 := 1 - t1 in
  match AudioData.data ad (i * channels + ichannel r)%Z,
        AudioData.data ad (e * channels + ichannel r)%Z with
  | Some init, Some end_ => Some (t0 * init + end_ * t1)
  | _, _ => None
  end.

End Resample.

(** ** WavetableSynth.cpp *)

Module WavetableSynth.

Definition EPSILON : R := 0.01.
Definition A440_CENTS : R := 6900.
Definition MIX_DOWN : R := 0.3.
Definition CENTS_SCALE : Z := 100.
Definition CENTS_RANGE : R := 2 * IZR CENTS_SCALE.
Definition RATIO_7BIT : R := 1 / 127.
Definition TWO_PI : R := 2 * PI.
Definition REV_TO_HZ : R := 5 * TWO_PI.
Definition MAX_NOTES : Z := 10.

(** [enum Voice]; [Default = Grand]. *)
Inductive Voice : Set := Grand | Oboe | Cello | Max.
Definition Default : Voice := Grand.

(** [(Voice)(value % Voice::Max)]: the remainder of C++ [%]; a value that
    names no instrument behaves as [Max] does in [Play]. *)
Definition Voice_of_Z (z : Z) : Voice :=
  match z with
  | 0%Z => Grand
  | 1%Z => Oboe
  | 2%Z => Cello
  | _ => Max
  end.

(** Conversion of an [int] to the [short] member [key]. *)
Definition to_short (z : Z) : Z := ((z + 2 ^ 15) mod 2 ^ 16 - 2 ^ 15)%Z.

Record WaveData : Type := mkWaveData {
  source : AudioData.t;
  channel : Z;
  first : Z;
  last : Z;
  speed : R
}.

Record Note : Type := mkNote {
  key : Z;
  vel : R;
  inst : Voice;
  phase : Resample.t;
  env : ADSR.t
}.

Definition set_key (k : Z) (n : Note) : Note :=
  mkNote k (vel n) (inst n) (phase n) (env n).
Definition set_vel (v : R) (n : Note) : Note :=
  mkNote (key n) v (inst n) (phase n) (env n).
Definition set_inst (i : Voice) (n : Note) : Note :=
  mkNote (key n) (vel n) i (phase n) (env n).
Definition set_phase (p : Resample.t) (n : Note) : Note :=
  mkNote (key n) (vel n) (inst n) p (env n).
Definition set_env (e : ADSR.t) (n : Note) : Note :=
  mkNote (key n) (vel n) (inst n) (phase n) e.

Record t : Type := mk {
  playing : list Note;
  bend : R;
  rate : R;
  vibrato : R;
  mod_ : R;
  vol : R;
  mphase : R;
  dphase : R;
  newest : Z;
  patch : Voice
}.

Definition set_playing (l : list Note) (s : t) : t :=
  mk l (bend s) (rate s) (vibrato s) (mod_ s) (vol s) (mphase s)
     (dphase s) (newest s) (patch s).
Definition set_newest (i : Z) (s : t) : t :=
  mk (playing s) (bend s) (rate s) (vibrato s) (mod_ s) (vol s) (mphase s)
     (dphase s) i (patch s).

(** [playing[i].f()]: the element at subscript [i] (a subscript of the
    array, [0 <= i < MAX_NOTES]) is replaced by its image. *)
Definition at_slot (i : Z) (f : Note -> Note) (s : t) : t :=
  set_playing (alter f (Z.to_nat i) (playing s)) s.

(** Outcome of the two scan loops of [onNoteOn]: the subscript of a voice
    that already holds the key (the early return), or the value of the
    local [index] when the loop ends. *)
Inductive scan : Set := Held (i : Z) | Open (index : Z).

(** [for (i = lo; i < lo + count; ++i) { ... }] over [playing]. *)
Fixpoint scan_loop (l : list Note) (note : Z) (count : nat) (i index : Z)
    : scan :=
  match count with
  | O => Open index
  | S c =>
      match l !! Z.to_nat i with
      | None => Open index
      | Some n =>
          if (key n =? note)%Z then Held i
          else scan_loop l note c (i + 1)%Z
                 (if (0 <=? index)%Z && (key n <? 0)%Z then i else index)
      end
  end.

(** The retrigger of a voice that already holds the key. *)
Definition retrigger (velocity : Z) (n : Note) : Note :=
  set_phase (Resample.reset (phase n))
    (set_env (ADSR.reset (env n))
       (set_vel (IZR velocity * RATIO_7BIT) n)).

(** [Note::next()] *)
Definition Note_next (n : Note) : Note :=
  if (key n =? -1)%Z then n
  else match ADSR.mode (env n) with
       | ADSR.RELEASE =>
           if Rltb (ADSR.output (env n)) EPSILON
           then set_phase (Resample.pitchOffset (-25600) (phase n))
                  (set_vel 0 (set_key (-1) n))
           else set_env (ADSR.next (env n))
                  (set_phase (Resample.next (phase n)) n)
       | _ => set_env (ADSR.next (env n))
                (set_phase (Resample.next (phase n)) n)
       end.

(** [playing[i].phase.pitchOffset(c + playing[i].key - A440_CENTS)] *)
Definition repitch (c : R) (n : Note) : Note :=
  set_phase
    (Resample.pitchOffset (c + IZR (key n) - A440_CENTS) (phase n)) n.


(** [Note::output()] *)
Definition Note_output (n : Note) : option R :=
  match Resample.output (phase n) with
  | Some x => Some (x * ADSR.output (env n) * MIX_DOWN)
  | None => None
  end.

Section Tables.

(** The decoding of a wave file into its sample source
    (the [AudioData] constructor taking a file name), supplied from outside. *)
Variable load : string -> AudioData.t.

(** The default-constructed [Resample] member of a [Note], as declared
    in [Resample.h]. *)
Variable phase0 : Resample.t.

(** [WaveData::WaveData(file, gain, start, end)] *)
Definition WaveData_ctor (file : string) (gain : R) (start end_ : Z)
    : WaveData :=
  {| source := load file; speed := gain; first := start; last := end_;
     channel := 0 |}.

Definition grand0 := WaveData_ctor "UpGrand_A22_5.wav"%string 16 46310 66775.
Definition grand1 := WaveData_ctor "UpGrand_A55.wav"%string 8 129883 197134.
Definition grand2 := WaveData_ctor "UpGrand_A110.wav"%string 4 71353 117383.
Definition grand3 := WaveData_ctor "UpGrand_A220.wav"%string 2 109664 169738.
Definition grand4 := WaveData_ctor "UpGrand_A440.wav"%string 1 56129 100326.
Definition grand5 := WaveData_ctor "UpGrand_A880.wav"%string 0.5 11437 40303.
Definition grand6 := WaveData_ctor "UpGrand_A1760.wav"%string 0.25 6344 13215.
Definition grand7 := WaveData_ctor "UpGrand_A3520.wav"%string 0.125 14565 28123.
Definition cello :=
  WaveData_ctor "Cello.wav"%string 4.51280512805128051280512805128051281
    39763 42019.
Definition oboe :=
  WaveData_ctor "Oboe.wav"%string 0.990990990990990990990990990990990990991
    322 17455.

(** [Note::SetSound(data, sampling_rate)] *)
Definition SetSound (data : WaveData) (sampling_rate : R) (n : Note)
    : Note :=
  let rate_offset :=
    sampling_rate / IZR (AudioData.rate (source data)) in
  let p :=
    Resample.ctor (source data) (channel data)
      (if Reqb rate_offset 0 then speed data
       else speed data * rate_offset)
      (first data) (last data) in
  set_phase (Resample.pitchOffset (IZR (key n) - A440_CENTS) p) n.

(** [Note::Play(rate)] *)
Definition Play (rate0 : R) (n : Note) : Note :=
  match inst n with
  | Grand =>
      if (key n <? 1600)%Z then SetSound grand0 rate0 n
      else if (key n <? 3200)%Z then SetSound grand1 rate0 n
      else if (key n <? 4800)%Z then SetSound grand2 rate0 n
      else if (key n <? 6400)%Z then SetSound grand3 rate0 n
      else if (key n <? 8000)%Z then SetSound grand4 rate0 n
      else if (key n <? 9600)%Z then SetSound grand5 rate0 n
      else if (key n <? 11200)%Z then SetSound grand6 rate0 n
      else SetSound grand7 rate0 n
  | Cello => SetSound cello rate0 n
  | Oboe => SetSound oboe rate0 n
  | _ => n
  end.

(** [Note::Note(midid, velocity, instr, rate)] *)
Definition Note_ctor (midid : Z) (velocity : R) (instr : Voice)
    (rate0 : R) : Note :=
  Play rate0
    {| key := midid; vel := velocity; inst := instr; phase := phase0;
       env := ADSR.ctor 0.01 600 0.8 4 rate0 |}.

(** [WavetableSynth::WavetableSynth(devno, R)]; the MIDI device is
    outside the model. *)
Definition ctor (R0 : Z) : t :=
  {| newest := 0; patch := Default; bend := 0; vibrato := 0;
     vol := 0.5; mod_ := 0; mphase := 0; rate := IZR R0;
     dphase := REV_TO_HZ / IZR R0;
     playing :=
       replicate (Z.to_nat MAX_NOTES)
         (Note_ctor (-1) 0 Default (IZR R0)) |}.

(** [WavetableSynth::output()] *)
Definition output (s : t) : option R :=
  match
    foldl (fun acc n =>
             match acc with
             | None => None
             | Some a =>
                 if (key n <? 0)%Z then Some (a + 0)
                 else match Note_output n with
                      | Some x => Some (a + x)
                      | None => None
                      end
             end) (Some 0) (playing s)
  with
  | Some o => Some (o * vol s)
  | None => None
  end.

(** [WavetableSynth::next()]; the two [for] loops visit every element
    of [playing]. *)
Definition next (s : t) : t :=
  let s1 :=
    if Reqb 0 (vibrato s) then s
    else
      let t0 := mphase s + dphase s in
      let mphase1 := if Rleb t0 TWO_PI then t0 else t0 - TWO_PI in
      let mod1 := vibrato s * sin mphase1 in
      mk (repitch (mod1 + bend s) <$> playing s)
         (bend s) (rate s) (vibrato s) mod1 (vol s) mphase1 (dphase s)
         (newest s) (patch s) in
  set_playing (Note_next <$> playing s1) s1.

(** [WavetableSynth::onModulationWheelChange(channel, value)] *)
Definition onModulationWheelChange (chan value : Z) (s : t) : t :=
  mk (playing s) (bend s) (rate s)
     (IZR value * CENTS_RANGE * RATIO_7BIT)
     (mod_ s) (vol s) (mphase s) (dphase s) (newest s) (patch s).

(** [WavetableSynth::onNoteOff(channel, note)] *)
Definition onNoteOff (chan note : Z) (s : t) : t :=
  let note := (note * CENTS_SCALE)%Z in
  set_playing
    ((fun n =>
        if (key n =? note)%Z
        then set_env (ADSR.sustainOff (env n)) n else n)
       <$> playing s) s.

(** The statements of [onNoteOn] after the two loops, entered with the
    final values of [i] and [index]. *)
Definition assign (note velocity i index : Z) (s : t) : t :=
  let index :=
    if (index <? 0)%Z
    then (if (newest s + 1 =? MAX_NOTES)%Z then 0 else newest s + 1)%Z
    else index in
  let s := at_slot index (set_key (to_short note)) s in
  let s := at_slot index (set_vel (IZR velocity * RATIO_7BIT)) s in
  let s := at_slot i (set_inst (patch s)) s in
  let s := at_slot index (Play (rate s)) s in
  let s := at_slot index (fun n => set_env (ADSR.reset (env n)) n) s in
  set_newest index s.

(** The two loops of [onNoteOn] in sequence, [index] starting at -1: from
    [newest] up to [MAX_NOTES], then from 0 up to [newest]. *)
Definition scans (s : t) (note : Z) : scan :=
  match
    scan_loop (playing s) note (Z.to_nat (MAX_NOTES - newest s))
      (newest s) (-1)
  with
  | Held i => Held i
  | Open index => scan_loop (playing s) note (Z.to_nat (newest s)) 0 index
  end.

(** [WavetableSynth::onNoteOn(channel, note, velocity)]; the loop counter
    [i] leaves the second loop with the value of [newest]. *)
Definition onNoteOn (chan note velocity : Z) (s : t) : t :=
  let note := (note * CENTS_SCALE)%Z in
  match scans s note with
  | Held i => at_slot i (retrigger velocity) s
  | Open index => assign note velocity (Z.max 0 (newest s)) index s
  end.

(** The slot written by [onNoteOn] when no voice holds the key [note]
    (in cents): the value of [index] after the steal fallback. *)
Definition chosen_slot (s : t) (note : Z) : option Z :=
  match scans s note with
  | Held _ => None
  | Open index =>
      Some (if (index <? 0)%Z
            then (if (newest s + 1 =? MAX_NOTES)%Z then 0 else newest s + 1)%Z
            else index)
  end.

(** [WavetableSynth::onPatchChange(channel, value)] *)
Definition onPatchChange (chan value : Z) (s : t) : t :=
  let patch1 := Voice_of_Z (Z.rem value 3) in
  mk ((fun _ => Note_ctor (-1) 0 patch1 (rate s)) <$> playing s)
     (bend s) (rate s) (vibrato s) (mod_ s) (vol s) (mphase s)
     (dphase s) (newest s) patch1.

(** [WavetableSynth::onPitchWheelChange(channel, value)] *)
Definition onPitchWheelChange (chan : Z) (value : R) (s : t) : t :=
  let bend1 := value * CENTS_RANGE in
  mk (repitch bend1 <$> playing s)
     bend1 (rate s) (vibrato s) (mod_ s) (vol s) (mphase s) (dphase s)
     (newest s) (patch s).

(** [WavetableSynth::onVolumeChange(channel, level)] *)
Definition onVolumeChange (chan level : Z) (s : t) : t :=
  mk (playing s) (bend s) (rate s) (vibrato s) (mod_ s)
     (IZR level * RATIO_7BIT) (mphase s) (dphase s) (newest s)
     (patch s).

(** A run of note-ons at velocity 100, delivered one by one. *)
Definition notes_on (notes : list Z) (s : t) : t :=
  fold_left (fun s0 n => onNoteOn 0 n 100 s0) notes s.

(** The invariant of the pool: the array has [MAX_NOTES] elements,
    [newest] is one of its subscripts, and every voice carries the
    current patch. *)
Definition wf (s : t) : Prop :=
  length (playing s) = Z.to_nat MAX_NOTES /\
  (0 <= newest s < MAX_NOTES)%Z /\
  Forall (fun n => inst n = patch s) (playing s).

(** The states a synthesizer goes through: construction, then control
    events and per-sample ticks in any order. *)
Inductive reachable : t -> Prop :=
| reach_ctor (R0 : Z) : reachable (ctor R0)
| reach_next s : reachable s -> reachable (next s)
| reach_mod s chan value :
    reachable s -> reachable (onModulationWheelChange chan value s)
| reach_off s chan note : reachable s -> reachable (onNoteOff chan note s)
| reach_on s chan note velocity :
    reachable s -> reachable (onNoteOn chan note velocity s)
| reach_patch s chan value :
    reachable s -> reachable (onPatchChange chan value s)
| reach_wheel s chan value :
    reachable s -> reachable (onPitchWheelChange chan value s)
| reach_vol s chan level :
    reachable s -> reachable (onVolumeChange chan level s).

End Tables.

(** The order in which the slots are scanned: from [newest] to the end of
    the array, then from its start up to [newest]. *)
Definition scan_order (newest0 : Z) : list Z :=
  seqZ newest0 (MAX_NOTES - newest0) ++ seqZ 0 newest0.

Definition inactive_at (keys : list Z) (i : Z) : bool :=
  match keys !! Z.to_nat i with
  | Some k => (k <? 0)%Z
  | None => false
  end.

(** The slot choice in the words of the specification, on the keys of the
    pool: the first inactive slot in scan order, else the slot following
    [newest], wrapping at the capacity of the pool. *)
Definition claimed_slot (keys : list Z) (newest0 : Z) : Z :=
  match List.find (inactive_at keys) (scan_order newest0) with
  | Some i => i
  | None => if (newest0 + 1 =? MAX_NOTES)%Z then 0%Z else (newest0 + 1)%Z
  end.

(** What [Note::next()] reads of a voice to decide on its key, and the key
    it leaves. *)
Definition tag (n : Note) : Z * ADSR.Mode * R :=
  (key n, ADSR.mode (env n), ADSR.output (env n)).

Definition next_key (x : Z * ADSR.Mode * R) : Z :=
  let '(k, m, a) := x in
  match m with
  | ADSR.RELEASE => if Rltb a EPSILON then (-1)%Z else k
  | _ => k
  end.

(** A one-channel source of two silent frames at 44100 Hz, standing for
    every wave file in the worked examples. *)
Definition quiet : AudioData.t := AudioData.mk [0; 0] 2 44100 1.
Definition load_quiet (file : string) : AudioData.t := quiet.
Definition phase_quiet : Resample.t := Resample.ctor quiet 0 1 0 0.

End WavetableSynth.

(** ** Runs of envelope operations *)

Module EnvelopeRun.

(** The three operations a caller applies to an envelope. *)
Inductive op : Set := Next | Reset | SustainOff.

Definition apply (o : op) (e : ADSR.t) : ADSR.t :=
  match o with
  | Next => ADSR.next e
  | Reset => ADSR.reset e
  | SustainOff => ADSR.sustainOff e
  end.

(** The operations of [ops] applied in order, the head first. *)
Definition run (ops : list op) (e : ADSR.t) : ADSR.t :=
  fold_left (fun e0 o => apply o e0) ops e.

(** The amplitude and the parameters of an envelope are in range. *)
Definition in_range (e : ADSR.t) : Prop :=
  0 <= ADSR.envelope e <= 1 /\ 0 <= ADSR.sustain_level e <= 1 /\
  0 <= ADSR.attack_increment e /\
  0 <= ADSR.decay_factor e <= 1 /\ 0 <= ADSR.release_factor e <= 1.

End EnvelopeRun.

(** ** AudioData.cpp: construction, sample access, normalisation *)

Module AudioDataOps.

(** [AudioData::AudioData(nframes, R, nchannels)]: the buffer is resized
    to [frame_count * channel_count] (an [unsigned] product) zeros. *)
Definition ctor (nframes R0 nchannels : Z) : AudioData.t :=
  AudioData.mk
    (replicate (Z.to_nat (wrap32 (nframes * nchannels))) 0)
    nframes R0 nchannels.

(** The subscript [frame * channels() + channel] of [sample]. *)
Definition subscript (ad : AudioData.t) (frame channel : Z) : Z :=
  wrap32 (wrap32 (frame * AudioData.channels ad) + channel).

(** [AudioData::sample(frame, channel) const] *)
Definition sample (ad : AudioData.t) (frame channel : Z) : option R :=
  AudioData.data ad (subscript ad frame channel).

(** An assignment through the reference that the non-const [sample]
    returns; [None] when the subscript lies outside the buffer. *)
Definition set_sample (ad : AudioData.t) (frame channel : Z) (v : R)
    : option AudioData.t :=
  match sample ad frame channel with
  | Some _ =>
      Some (AudioData.mk
              (<[Z.to_nat (subscript ad frame channel) := v]>
                 (AudioData.fdata ad))
              (AudioData.frame_count ad) (AudioData.sampling_rate ad)
              (AudioData.channel_count ad))
  | None => None
  end.

(** [MaxF(a, b)] and [AbsF(val)] *)
Definition MaxF (a b : R) : R := if Rltb b a then a else b.
Definition AbsF (val : R) : R := MaxF val (- val).

(** The subscripts visited by
    [for (unsigned s = first; s < total; s += step)], cut after [fuel]
    iterations (the loop makes at most [total] of them unless [s] wraps
    around). *)
Fixpoint strided (fuel : nat) (s step total : Z) : list Z :=
  match fuel with
  | O => []
  | S k =>
      if (s <? total)%Z
      then s :: strided k (wrap32 (s + step)) step total
      else []
  end.

(** [data()[s]] inside the loops of [normalize], where [s] is below
    [total_samples]. *)
Definition at_ (l : list R) (s : Z) : R := nth (Z.to_nat s) l 0.

(** The running values of the first pair of loops: the sum of the
    current channel, the greatest absolute value met so far and the
    channel it was met in. *)
Record stats : Type := mkStats {
  sum : R;
  max : R;
  channel : Z
}.

(** The body of the inner loop of the first pass, at subscript [s] of
    channel [i]. *)
Definition visit (l : list R) (i : Z) (st : stats) (s : Z) : stats :=
  let sum1 := sum st + at_ l s in
  let rate := AbsF (at_ l s) in
  if Rltb (max st) rate then mkStats sum1 rate i
  else mkStats sum1 (max st) (channel st).

(** One iteration of the outer loop of the first pass: channel [i] is
    summed and [DC[i]] recorded. *)
Definition measure (l : list R) (frames channels total : Z)
    (acc : list R * stats) (i : Z) : list R * stats :=
  let '(DC, st) := acc in
  let st1 :=
    fold_left (visit l i) (strided (Z.to_nat total) i channels total)
      (mkStats 0 (max st) (channel st)) in
  (<[Z.to_nat i := sum st1 / IZR frames]> DC, st1).

(** One iteration of the outer loop of the second pass: [DC[i]] is
    subtracted from the samples of channel [i]. *)
Definition recentre (DC : list R) (channels total : Z) (l : list R) (i : Z)
    : list R :=
  fold_left (fun l0 s => <[Z.to_nat s := at_ l0 s - at_ DC i]> l0)
    (strided (Z.to_nat total) i channels total) l.

(** The value of [max] after [max -= DC[channel]]: the divisor of the
    gain. *)
Definition divisor (ad : AudioData.t) : R :=
  let frames := AudioData.frames ad in
  let channels := AudioData.channels ad in
  let total := wrap32 (frames * channels) in
  let '(DC, st) :=
    fold_left (measure (AudioData.fdata ad) frames channels total)
      (seqZ 0 channels)
      (replicate (Z.to_nat channels) 0, mkStats 0 0 0) in
  max st - at_ DC (channel st).

(** [normalize(ad, dB)] *)
Definition normalize (ad : AudioData.t) (dB : R) : AudioData.t :=
  let frames := AudioData.frames ad in
  let channels := AudioData.channels ad in
  if (frames =? 0)%Z || (channels =? 0)%Z then ad
  else
    let total := wrap32 (frames * channels) in
    let '(DC, st) :=
      fold_left (measure (AudioData.fdata ad) frames channels total)
        (seqZ 0 channels)
        (replicate (Z.to_nat channels) 0, mkStats 0 0 0) in
    let max1 := max st - at_ DC (channel st) in
    let l1 :=
      fold_left (recentre DC channels total) (seqZ 0 channels)
        (AudioData.fdata ad) in
    let rate := Rpower 10 (dB / 20) / max1 in
    let l2 :=
      fold_left (fun l0 s => <[Z.to_nat s := at_ l0 s * rate]> l0)
        (seqZ 0 total) l1 in
    AudioData.mk l2 (AudioData.frame_count ad) (AudioData.sampling_rate ad)
      (AudioData.channel_count ad).

(** The sum of the samples of one channel. *)
Definition channel_sum (ad : AudioData.t) (i : Z) : R :=
  let frames := AudioData.frames ad in
  let channels := AudioData.channels ad in
  foldr Rplus 0
    ((fun k => at_ (AudioData.fdata ad) (i + k * channels)%Z)
       <$> seqZ 0 frames).

(** The shape a buffer has after construction: the dimensions are
    those of an [unsigned], their product does not wrap around, and
    the buffer holds one sample for every frame and channel. *)
Definition well_formed (ad : AudioData.t) : Prop :=
  (0 <= AudioData.frames ad)%Z /\ (0 <= AudioData.channels ad)%Z /\
  (AudioData.frames ad * AudioData.channels ad < 2 ^ 32)%Z /\
  length (AudioData.fdata ad)
  = Z.to_nat (AudioData.frames ad * AudioData.channels ad).

(** What the first pass of [normalize] has established once the
    subscripts in [V] are visited: [max] bounds their absolute values,
    and either nothing has exceeded the initial 0, or [max] is the
    absolute value of a visited sample and [channel] its channel. *)
Definition peak_of (l : list R) (channels : Z) (V : Z -> Prop)
    (st : stats) : Prop :=
  (forall s, V s -> AbsF (at_ l s) <= max st)
  /\ ((max st = 0 /\ channel st = 0%Z)
      \/ exists s,
           V s /\ max st = AbsF (at_ l s)
           /\ channel st = (s mod channels)%Z).

End AudioDataOps.

(** ** Invariants of the voices of a pool *)

Module PoolInvariant.

(** The envelope of a voice has the parameters [Note::Note] gives it for
    the sample rate [rate0], and, for a non-negative sample rate, an
    amplitude in [0,1]. *)
Definition voice_envelope (rate0 : R) (e : ADSR.t) : Prop :=
  ADSR.sustain_level e = 0.8 /\
  ADSR.attack_increment e = ADSR.linearDegradeRate 0.01 rate0 600 0.8 /\
  ADSR.decay_factor e = ADSR.expDegradeRate 600 rate0 /\
  ADSR.release_factor e = ADSR.expDegradeRate 4 rate0 /\
  (0 <= rate0 -> 0 <= ADSR.envelope e <= 1).

Definition voices_ok (s : WavetableSynth.t) : Prop :=
  Forall
    (fun n =>
       voice_envelope (WavetableSynth.rate s) (WavetableSynth.env n))
    (WavetableSynth.playing s).

End PoolInvariant.

(** ** MidiIn.cpp: the dispatch of one message *)

Module MidiIn.

(** The callbacks [eventLoop] invokes on the object it polls for. *)
Inductive callback : Type :=
| NoteOff (channel note : Z)
| NoteOn (channel note velocity : Z)
| ModulationWheelChange (channel value : Z)
| VolumeChange (channel level : Z)
| ControlChange (channel controller value : Z)
| PatchChange (channel value : Z)
| PitchWheelChange (channel : Z) (value : R).

(** [ratio16Bit = 2.0f / ((1 << 14) - 1)] *)
Definition ratio16Bit : R := 2 / IZR (Z.shiftl 1 14 - 1).

(** The body of [eventLoop] for one polled message, given as the bytes
    [byte[0]], [byte[1]], [byte[2]] of the union (each 0..255): the
    callbacks invoked, in order, or [None] where the code throws
    [runtime_error] for a command it does not recognise. *)
Definition dispatch (byte0 byte1 byte2 : Z) : option (list callback) :=
  let cmd_n := Z.shiftr byte0 4 in
  let channel := Z.land byte0 0x0F in
  let b1 := Z.land byte1 0x7F in
  let b2 := Z.land byte2 0x7F in
  let b12 := (Z.shiftl b2 7 + b1 - Z.shiftl 1 13)%Z in
  match cmd_n with
  | 0x8 => Some [NoteOff channel b1]
  | 0x9 =>
      if (b2 =? 0)%Z then Some [NoteOff channel b1]
      else Some [NoteOn channel b1 b2]
  | 0xB =>
      Some ((match b1 with
             | 1 => [ModulationWheelChange channel b2]
             | 7 => [VolumeChange channel b2]
             | _ => []
             end)%Z
            ++ [ControlChange channel b1 b2])
  | 0xC => Some [PatchChange channel b1]
  | 0xE => Some [PitchWheelChange channel (IZR b12 * ratio16Bit)]
  | _ => None
  end%Z.

(** The values a callback carries are MIDI data: channel 0..15, data
    0..127, a note-on velocity of at least 1, a pitch-wheel value from
    -16384/16383 to 16382/16383. *)
Definition well_ranged (c : callback) : Prop :=
  match c with
  | NoteOff ch n => (0 <= ch <= 15 /\ 0 <= n <= 127)%Z
  | NoteOn ch n v => (0 <= ch <= 15 /\ 0 <= n <= 127 /\ 1 <= v <= 127)%Z
  | ModulationWheelChange ch v => (0 <= ch <= 15 /\ 0 <= v <= 127)%Z
  | VolumeChange ch v => (0 <= ch <= 15 /\ 0 <= v <= 127)%Z
  | ControlChange ch c0 v =>
      (0 <= ch <= 15 /\ 0 <= c0 <= 127 /\ 0 <= v <= 127)%Z
  | PatchChange ch v => (0 <= ch <= 15 /\ 0 <= v <= 127)%Z
  | PitchWheelChange ch x =>
      (0 <= ch <= 15)%Z /\ - 16384 / 16383 <= x <= 16382 / 16383
  end.

End MidiIn.

(** ** The synthesizer as the receiver of the callbacks *)

Module SynthMidi.

Section Receiver.

Variable load : string -> AudioData.t.
Variable phase0 : Resample.t.

(** The virtual call of one callback on a [WavetableSynth];
    [onControlChange] is not overridden by [WavetableSynth], and the
    base class has no access to the state of the synthesizer. *)
Definition deliver (c : MidiIn.callback) (s : WavetableSynth.t)
    : WavetableSynth.t :=
  match c with
  | MidiIn.NoteOff ch n => WavetableSynth.onNoteOff ch n s
  | MidiIn.NoteOn ch n v => WavetableSynth.onNoteOn load ch n v s
  | MidiIn.ModulationWheelChange ch v =>
      WavetableSynth.onModulationWheelChange ch v s
  | MidiIn.VolumeChange ch v => WavetableSynth.onVolumeChange ch v s
  | MidiIn.ControlChange _ _ _ => s
  | MidiIn.PatchChange ch v => WavetableSynth.onPatchChange load phase0 ch v s
  | MidiIn.PitchWheelChange ch x => WavetableSynth.onPitchWheelChange ch x s
  end.

(** One polled message applied to the synthesizer; [None] where
    [eventLoop] throws. *)
Definition handle (byte0 byte1 byte2 : Z) (s : WavetableSynth.t)
    : option WavetableSynth.t :=
  match MidiIn.dispatch byte0 byte1 byte2 with
  | Some cs => Some (fold_left (fun s0 c => deliver c s0) cs s)
  | None => None
  end.

(** The states of a synthesizer driven by MIDI messages and ticks. *)
Inductive driven : WavetableSynth.t -> Prop :=
| driven_ctor (R0 : Z) : driven (WavetableSynth.ctor load phase0 R0)
| driven_next s : driven s -> driven (WavetableSynth.next s)
| driven_handle s s' b0 b1 b2 :
    driven s ->
    (0 <= b0 < 256)%Z -> (0 <= b1 < 256)%Z -> (0 <= b2 < 256)%Z ->
    handle b0 b1 b2 s = Some s' -> driven s'.

End Receiver.

(** The global controls are within their ranges. *)
Definition controls_in_range (s : WavetableSynth.t) : Prop :=
  0 <= WavetableSynth.vol s <= 1 /\
  0 <= WavetableSynth.vibrato s <= 200 /\
  - 200 * (16384 / 16383) <= WavetableSynth.bend s <= 200 /\
  - 200 <= WavetableSynth.mod_ s <= 200 /\
  WavetableSynth.patch s <> WavetableSynth.Max.

End SynthMidi.

(** * Properties *)

(** ** Comparisons and truncation *)

Lemma Rltb_true (x y : R) : x < y -> Rltb x y = true.
Proof.
  intros H. unfold Rltb.
  destruct (Rlt_dec x y); [reflexivity | contradiction].
Qed.

Lemma Rltb_false (x y : R) : y <= x -> Rltb x y = false.
Proof. intros H; unfold Rltb; destruct (Rlt_dec x y); [lra | reflexivity]. Qed.

Lemma Rleb_true (x y : R) : x <= y -> Rleb x y = true.
Proof.
  intros H. unfold Rleb.
  destruct (Rle_dec x y); [reflexivity | contradiction].
Qed.

Lemma Rleb_false (x y : R) : y < x -> Rleb x y = false.
Proof. intros H; unfold Rleb; destruct (Rle_dec x y); [lra | reflexivity]. Qed.

Lemma Reqb_true (x y : R) : x = y -> Reqb x y = true.
Proof.
  intros H. unfold Reqb.
  destruct (Req_dec_T x y); [reflexivity | contradiction].
Qed.

Lemma Reqb_false (x y : R) : x <> y -> Reqb x y = false.
Proof.
  intros H. unfold Reqb.
  destruct (Req_dec_T x y); [contradiction | reflexivity].
Qed.

Lemma trunc_eq (z : Z) (x : R) :
  0 <= x -> IZR z <= x < IZR z + 1 -> trunc x = z.
Proof.
  intros Hx Hz. unfold trunc.
  destruct (Rle_dec 0 x) as [_ | Hn]; [| contradiction].
  now apply Zfloor_eq.
Qed.

(** Arithmetic on concrete values, with the integer operations under
    [IZR] pushed to the reals first. *)
Ltac calc :=
  cbn; repeat (rewrite minus_IZR || rewrite mult_IZR || rewrite plus_IZR);
  lra.

(** Settles a comparison between two concrete values. *)
Ltac cmp :=
  repeat first
    [ rewrite Rltb_true by lra | rewrite Rltb_false by lra
    | rewrite Rleb_true by lra | rewrite Rleb_false by lra
    | rewrite Reqb_true by lra | rewrite Reqb_false by lra ].

(** ** The envelope *)

Section Envelope.

Import ADSR.

(** An envelope observed in phase [m] with amplitude [amp]. *)
Local Abbreviation at_phase m amp e := (set_mode m (set_envelope amp e)).

Lemma next_decay_mode (e : t) :
  current_mode e = DECAY -> current_mode (next e) = DECAY.
Proof.
  intros H. unfold next. rewrite H. cbn.
  destruct (Rleb _ _); cbn; exact H.
Qed.

Lemma next_sustain_level (e : t) : sustain_level (next e) = sustain_level e.
Proof.
  unfold next.
  destruct (current_mode e); cbn; try reflexivity;
    destruct (Rleb _ _); reflexivity.
Qed.

Lemma next_decay_factor (e : t) : decay_factor (next e) = decay_factor e.
Proof.
  unfold next.
  destruct (current_mode e); cbn; try reflexivity;
    destruct (Rleb _ _); reflexivity.
Qed.

Lemma next_decay_floor (e : t) :
  current_mode e = DECAY -> sustain_level e <= envelope (next e).
Proof.
  intros H. unfold next. rewrite H. cbn. unfold Rleb.
  destruct (Rle_dec _ _); cbn; lra.
Qed.

Lemma next_decay_clamp (e : t) :
  current_mode e = DECAY ->
  envelope e * decay_factor e <= sustain_level e ->
  envelope (next e) = sustain_level e.
Proof.
  intros H Hle. unfold next. rewrite H. cbn.
  rewrite Rleb_true by exact Hle. reflexivity.
Qed.

Lemma ticks_sustain_level (n : nat) (e : t) :
  sustain_level (ticks next n e) = sustain_level e.
Proof.
  induction n as [| n IH]; cbn; [reflexivity |].
  now rewrite next_sustain_level.
Qed.

Lemma ticks_decay_factor (n : nat) (e : t) :
  decay_factor (ticks next n e) = decay_factor e.
Proof.
  induction n as [| n IH]; cbn; [reflexivity |].
  now rewrite next_decay_factor.
Qed.

Lemma ticks_decay_mode (n : nat) (e : t) :
  current_mode e = DECAY -> current_mode (ticks next n e) = DECAY.
Proof.
  intros H. induction n as [| n IH]; cbn; [exact H |].
  now apply next_decay_mode.
Qed.

(** C5: an envelope in Decay whose amplitude is at least the sustain
    level, with a decay factor in [0,1], stays in Decay through any
    number of [next()] calls and its amplitude never falls below the
    sustain level; the tick on which the decayed amplitude would reach
    or pass the sustain level sets it to exactly the sustain level. *)
Theorem decay_never_below_sustain (e : t) (n : nat) :
  current_mode e = DECAY ->
  sustain_level e <= envelope e ->
  0 <= decay_factor e <= 1 ->
  let e' := ticks next n e in
  mode e' = DECAY /\
  sustain_level e <= output e' /\
  (output e' * decay_factor e <= sustain_level e ->
   output (next e') = sustain_level e /\ mode (next e') = DECAY).
Proof.
  intros Hm Hs Hf e'. subst e'. unfold mode, output.
  assert (Hmode : current_mode (ticks next n e) = DECAY)
    by now apply ticks_decay_mode.
  split; [exact Hmode |]. split.
  - destruct n as [| n]; cbn; [exact Hs |].
    rewrite <- (ticks_sustain_level n e).
    apply next_decay_floor. now apply ticks_decay_mode.
  - intros Hle. split; [| now apply next_decay_mode].
    rewrite next_decay_clamp; [apply ticks_sustain_level | exact Hmode |].
    now rewrite ticks_decay_factor, ticks_sustain_level.
Qed.

Lemma decay_never_below_sustain_witness :
  let e := mk DECAY 1 0.8 1 0.5 0.5 in
  mode (ticks next 3 e) = DECAY /\ sustain_level e <= output (ticks next 3 e).
Proof.
  intros e.
  destruct (decay_never_below_sustain e 3) as (H1 & H2 & _).
  - reflexivity.
  - cbn; lra.
  - cbn; lra.
  - split; [exact H1 | exact H2].
Defined.

Lemma checked_div_nonzero (x y : R) : y <> 0 -> checked_div x y = Some (x / y).
Proof. intros H. unfold checked_div. now rewrite Reqb_false. Qed.

Lemma expDegradeRate_checked_total (t0 rate : R) :
  expDegradeRate_checked t0 rate = Some (expDegradeRate t0 rate).
Proof.
  unfold expDegradeRate_checked, expDegradeRate, Reqb.
  destruct (Req_dec_T t0 0) as [| Ht]; [reflexivity |].
  destruct (Req_dec_T rate 0) as [| Hr]; [reflexivity |].
  rewrite (checked_div_nonzero _ _ Ht), (checked_div_nonzero _ _ Hr).
  reflexivity.
Qed.

Lemma linearDegradeRate_checked_total (t0 rate d s : R) :
  linearDegradeRate_checked t0 rate d s = Some (linearDegradeRate t0 rate d s).
Proof.
  unfold linearDegradeRate_checked, linearDegradeRate, Reqb.
  destruct (Req_dec_T t0 0) as [| Ht]; [reflexivity |].
  destruct (Req_dec_T rate 0) as [| Hr]; [reflexivity |]. cbn.
  apply checked_div_nonzero. now apply Rmult_integral_contrapositive.
Qed.

Lemma expDegradeRate_zero_duration (rate : R) : expDegradeRate 0 rate = 0.
Proof. unfold expDegradeRate. now rewrite Reqb_true. Qed.

Lemma expDegradeRate_zero_rate (t0 : R) : t0 <> 0 -> expDegradeRate t0 0 = 1.
Proof.
  intros H. unfold expDegradeRate.
  rewrite Reqb_false by exact H. now rewrite Reqb_true.
Qed.

(** C6, as amended: a zero decay or release duration gives the factor 0
    (whatever the sample rate); one Release tick then yields amplitude 0,
    and one Decay tick yields the sustain level (0 only when the sustain
    level is not positive); a zero sample rate with a nonzero duration
    gives the factor 1, and then a Release tick, or a Decay tick taken at
    an amplitude not below the sustain level, leaves the amplitude
    unchanged; no division of the rate computations has a zero divisor. *)
Theorem degenerate_rates (a d s r rate amp : R) :
  expDegradeRate 0 rate = 0 /\
  output (next (at_phase RELEASE amp (ctor a d s 0 rate))) = 0 /\
  output (next (at_phase DECAY amp (ctor a 0 s r rate)))
    = (if Rleb 0 s then s else 0) /\
  (d <> 0 -> expDegradeRate d 0 = 1) /\
  (r <> 0 -> output (next (at_phase RELEASE amp (ctor a d s r 0))) = amp) /\
  (d <> 0 -> s <= amp ->
   output (next (at_phase DECAY amp (ctor a d s r 0))) = amp) /\
  expDegradeRate_checked d rate = Some (decay_factor (ctor a d s r rate)) /\
  expDegradeRate_checked r rate = Some (release_factor (ctor a d s r rate)) /\
  linearDegradeRate_checked a rate d s
    = Some (attack_increment (ctor a d s r rate)).
Proof.
  repeat split.
  - apply expDegradeRate_zero_duration.
  - cbn. rewrite expDegradeRate_zero_duration. lra.
  - cbn. rewrite expDegradeRate_zero_duration.
    replace (amp * 0) with 0 by lra.
    destruct (Rleb 0 s); reflexivity.
  - apply expDegradeRate_zero_rate.
  - intros Hr. cbn. rewrite expDegradeRate_zero_rate by exact Hr. lra.
  - intros Hd Hs. cbn. rewrite expDegradeRate_zero_rate by exact Hd.
    replace (amp * 1) with amp by lra.
    unfold Rleb. destruct (Rle_dec amp s); cbn; lra.
  - apply expDegradeRate_checked_total.
  - apply expDegradeRate_checked_total.
  - apply linearDegradeRate_checked_total.
Qed.

Lemma degenerate_rates_witness :
  expDegradeRate 600 0 = 1 /\
  output (next (at_phase DECAY 1 (ctor 0.01 600 0.8 4 0))) = 1.
Proof.
  destruct (degenerate_rates 0.01 600 0.8 4 0 1)
    as (_ & _ & _ & H4 & _ & H6 & _).
  split; [apply H4; lra | apply H6; lra].
Defined.

(** C6, the claim as stated fails: an envelope built with a zero decay
    duration (sample rate 44100, sustain level 0.8) enters Decay on its
    first tick with the factor 0, and the next tick leaves the amplitude
    at 0.8, not at silence; and with a zero sample rate and a zero decay
    duration the factor is 0, not 1. *)
Lemma zero_decay_tick_not_silent :
  let e := next (ctor 0 0 0.8 4 44100) in
  mode e = DECAY /\ decay_factor e = 0 /\
  output (next e) = 0.8 /\ output (next e) <> 0 /\
  decay_factor (ctor 0 0 0.8 4 0) <> 1.
Proof.
  cbn. unfold linearDegradeRate. cmp. cbn. cmp. cbn.
  rewrite !expDegradeRate_zero_duration. cmp. cbn.
  repeat split; try reflexivity; lra.
Qed.

(** C7: [reset()] leaves every envelope in Attack with amplitude 0, also
    the one constructed with a zero attack time, whose amplitude at
    construction is 1. *)
Theorem reset_ignores_zero_attack :
  (forall e : t, mode (reset e) = ATTACK /\ output (reset e) = 0) /\
  output (ctor 0 600 0.8 4 44100) = 1 /\
  output (reset (ctor 0 600 0.8 4 44100)) = 0.
Proof.
  split; [intros e; split; reflexivity |].
  cbn. cmp. split; reflexivity.
Qed.

End Envelope.

(** ** The resampler *)

Section Resampler.

Import Resample.

(** The folded read position the loop arithmetic arrives at:
    [findex - k * (loop_end - loop_bgn)] for the number [k] of whole loop
    lengths between [loop_bgn] and [findex]. *)
Lemma fold_bounds (x : R) (L : Z) :
  (0 < L)%Z ->
  IZR (Zfloor (x / IZR L) * L) <= x < IZR (Zfloor (x / IZR L) * L) + IZR L.
Proof.
  intros HL. apply IZR_lt in HL.
  pose proof (Zfloor_bound (x / IZR L)) as [Hlo Hhi].
  rewrite mult_IZR.
  assert (Hx : x = x / IZR L * IZR L) by (field; lra).
  split.
  - rewrite Hx at 2. apply Rmult_le_compat_r; lra.
  - rewrite Hx at 1.
    replace (IZR (Zfloor (x / IZR L)) * IZR L + IZR L)
      with ((IZR (Zfloor (x / IZR L)) + 1) * IZR L) by ring.
    apply Rmult_lt_compat_r; lra.
Qed.

Lemma Zfloor_lt (x : R) (z : Z) : x < IZR z -> (Zfloor x < z)%Z.
Proof.
  intros H. apply lt_IZR. pose proof (Zfloor_bound x). lra.
Qed.

Lemma trunc_nonneg (x : R) : 0 <= x -> trunc x = Zfloor x.
Proof.
  intros H. unfold trunc. destruct (Rle_dec 0 x); [reflexivity | contradiction].
Qed.

Lemma folded_range (r : t) :
  (0 <= iloop_bgn r < iloop_end r)%Z ->
  IZR (iloop_end r) < findex r ->
  IZR (iloop_bgn r) <= folded r < IZR (iloop_end r) /\ (1 <= loops r)%Z.
Proof.
  intros [Hb Hlt] Hpast. unfold folded, loops.
  set (L := (iloop_end r - iloop_bgn r)%Z).
  assert (HL : (0 < L)%Z) by (unfold L; lia).
  pose proof (fold_bounds (findex r - IZR (iloop_bgn r)) L HL) as [Hlo Hhi].
  assert (HLe : IZR L = IZR (iloop_end r) - IZR (iloop_bgn r))
    by (unfold L; apply minus_IZR).
  split; [split; lra |].
  apply Zfloor_lub. apply IZR_lt in HL.
  apply Rmult_le_reg_r with (IZR L); [lra |].
  replace ((findex r - IZR (iloop_bgn r)) / IZR L * IZR L)
    with (findex r - IZR (iloop_bgn r)) by (field; lra).
  lra.
Qed.

Lemma position_fold (r : t) :
  (0 <= iloop_bgn r < iloop_end r)%Z ->
  IZR (iloop_end r) < findex r ->
  findex r < IZR (2 ^ 31) ->
  position r =
    (folded r, Zfloor (folded r),
     if (AudioData.frames (audio_data r) =? Zfloor (folded r))%Z
     then iloop_bgn r else (Zfloor (folded r) + 1)%Z).
Proof.
  intros Hb Hpast Hmax.
  destruct (folded_range r Hb Hpast) as [[Hlo Hhi] Hk].
  unfold position.
  replace (iloop_bgn r <? iloop_end r)%Z with true
    by (symmetry; apply Z.ltb_lt; lia).
  rewrite Rltb_true by exact Hpast. cbn [andb].
  assert (Hb0 : 0 <= IZR (iloop_bgn r)) by (apply IZR_le; lia).
  assert (HL : 0 < IZR (iloop_end r - iloop_bgn r))
    by (apply IZR_lt; lia).
  rewrite trunc_nonneg.
  2:{ apply Rmult_le_pos; [lra | left; now apply Rinv_0_lt_compat]. }
  fold (loops r).
  assert (Hw : wrap32 (loops r * (iloop_end r - iloop_bgn r))
               = (loops r * (iloop_end r - iloop_bgn r))%Z).
  { unfold wrap32. apply Z.mod_small. split; [nia |].
    apply lt_IZR. unfold folded in Hlo.
    change (2 ^ 32)%Z with (2 * 2 ^ 31)%Z. rewrite (mult_IZR 2).
    lra. }
  rewrite Hw. fold (folded r).
  rewrite trunc_nonneg by lra. reflexivity.
Qed.

Lemma position_plain (r : t) (i : Z) :
  (iloop_bgn r <? iloop_end r)%Z && Rltb (IZR (iloop_end r)) (findex r)
    = false ->
  0 <= findex r ->
  IZR i <= findex r < IZR i + 1 ->
  position r = (findex r, i, (i + 1)%Z).
Proof.
  intros Hc H0 Hi. unfold position. rewrite Hc.
  now rewrite (trunc_eq i).
Qed.

(** Past [loop_end] the output depends on the folded index alone: the
    end-of-source test of the last branch compares the unfolded index
    with a frame below [loop_end] and never succeeds. *)
Lemma output_fold (r : t) :
  (0 <= iloop_bgn r < iloop_end r)%Z ->
  IZR (iloop_end r) < findex r ->
  findex r < IZR (2 ^ 31) ->
  output r = folded_output r.
Proof.
  intros Hb Hpast Hmax.
  destruct (folded_range r Hb Hpast) as [[Hlo Hhi] Hk].
  unfold output, folded_output. rewrite position_fold by assumption.
  set (i := Zfloor (folded r)).
  destruct (_ <? AudioData.frames (audio_data r))%Z; [reflexivity |].
  rewrite Rltb_false; [now rewrite andb_false_r |].
  assert (Hi : (i < iloop_end r)%Z) by now apply Zfloor_lt.
  assert (IZR (i + 1) <= IZR (iloop_end r)) by (apply IZR_le; lia).
  rewrite plus_IZR in *. lra.
Qed.

Lemma loops_shift (r : t) :
  (iloop_bgn r < iloop_end r)%Z ->
  loops (set_findex (findex r + IZR (iloop_end r - iloop_bgn r)) r)
    = (loops r + 1)%Z.
Proof.
  intros Hb. unfold loops. cbn.
  assert (HL : 0 < IZR (iloop_end r - iloop_bgn r)) by (apply IZR_lt; lia).
  rewrite <- (Zfloor_addz 1). f_equal. field. lra.
Qed.

Lemma folded_shift (r : t) :
  (iloop_bgn r < iloop_end r)%Z ->
  folded (set_findex (findex r + IZR (iloop_end r - iloop_bgn r)) r)
    = folded r.
Proof.
  intros Hb. unfold folded. rewrite loops_shift by exact Hb. cbn.
  rewrite !mult_IZR, plus_IZR. ring.
Qed.

(** Past [loop_end], the output is periodic in the index with period
    [loop_end - loop_bgn]. *)
Lemma output_periodic (r : t) :
  (0 <= iloop_bgn r < iloop_end r)%Z ->
  IZR (iloop_end r) < findex r ->
  findex r + IZR (iloop_end r - iloop_bgn r) < IZR (2 ^ 31) ->
  output (set_findex (findex r + IZR (iloop_end r - iloop_bgn r)) r)
    = output r.
Proof.
  intros Hb Hpast Hmax.
  assert (HL : 0 < IZR (iloop_end r - iloop_bgn r)) by (apply IZR_lt; lia).
  rewrite !output_fold; cbn; try assumption; try lra.
  unfold folded_output. rewrite folded_shift by lia. reflexivity.
Qed.

(** When the loop ends before the last frame, the output is the
    interpolation at the folded position, as the specification words
    it. *)
Lemma output_fold_claimed (r : t) :
  (0 <= iloop_bgn r < iloop_end r)%Z ->
  (iloop_end r < AudioData.frames (audio_data r))%Z ->
  IZR (iloop_end r) < findex r ->
  findex r < IZR (2 ^ 31) ->
  output r = claimed_loop_output r.
Proof.
  intros Hb Hfr Hpast Hmax.
  destruct (folded_range r Hb Hpast) as [[Hlo Hhi] Hk].
  rewrite output_fold by assumption.
  unfold folded_output, claimed_loop_output.
  replace (IZR (iloop_bgn r) +
           Rmod (findex r - IZR (iloop_bgn r)) (iloop_end r - iloop_bgn r))
    with (folded r) by (unfold folded, Rmod, loops; ring).
  set (i := Zfloor (folded r)).
  assert (Hi : (i < iloop_end r)%Z) by now apply Zfloor_lt.
  replace (AudioData.frames (audio_data r) =? i)%Z with false
    by (symmetry; apply Z.eqb_neq; lia).
  replace (i + 1 =? AudioData.frames (audio_data r))%Z with false
    by (symmetry; apply Z.eqb_neq; lia).
  replace (i + 1 <? AudioData.frames (audio_data r))%Z with true
    by (symmetry; apply Z.ltb_lt; lia).
  reflexivity.
Qed.

(** With looping disabled and the index on or past the last frame, no
    sample of a well-formed buffer is returned: the end-of-source branch
    reads the frame after the last one, outside the buffer. *)
Lemma output_past_end (r : t) :
  let ad := audio_data r in
  (iloop_end r <= iloop_bgn r)%Z ->
  (0 < AudioData.frames ad)%Z ->
  (0 <= ichannel r < AudioData.channels ad)%Z ->
  length (AudioData.fdata ad)
    = Z.to_nat (AudioData.frames ad * AudioData.channels ad) ->
  IZR (AudioData.frames ad - 1) <= findex r ->
  output r =
    if (AudioData.frames ad =? Zfloor (findex r))%Z
       && Rltb (findex r - IZR (Zfloor (findex r))) 0.001
    then None else Some 0.
Proof.
  intros ad Hoff Hfr Hch Hlen Hpast.
  assert (H0 : 0 <= findex r).
  { assert (0 <= IZR (AudioData.frames ad - 1)) by (apply IZR_le; lia). lra. }
  unfold output. fold ad.
  rewrite (position_plain r (Zfloor (findex r))).
  - assert (Hi : (AudioData.frames ad - 1 <= Zfloor (findex r))%Z)
      by now apply Zfloor_lub.
    replace (Zfloor (findex r) + 1 <? AudioData.frames ad)%Z with false
      by (symmetry; apply Z.ltb_ge; lia).
    destruct (AudioData.frames ad =? Zfloor (findex r))%Z eqn:Heq;
      [| reflexivity].
    destruct (Rltb _ _); [| reflexivity]. cbn [andb].
    apply Z.eqb_eq in Heq. rewrite <- Heq.
    unfold AudioData.data.
    replace (_ <? 0)%Z with false by (symmetry; apply Z.ltb_ge; nia).
    apply lookup_ge_None. rewrite Hlen. nia.
  - replace (iloop_bgn r <? iloop_end r)%Z with false
      by (symmetry; apply Z.ltb_ge; lia).
    reflexivity.
  - exact H0.
  - apply Zfloor_bound.
Qed.

(** C3: a loop that runs to the end of the source
    ([loop_end] = frame count 4, [loop_bgn] = 0) is read as silence on its
    last frame: from a fresh resampler of speed 1, seven [next()] calls
    bring the index to 7.8, which folds to 3.8; the upper frame is 4, the
    frame count, and [output()] returns 0, where interpolating frame 3
    with the wrapped frame [loop_bgn] gives 1.6. *)
Theorem loop_to_source_end_is_silent :
  let r := ticks next 7 (ctor (AudioData.mk [1; 2; 3; 4] 4 44100 1) 0 1 0 4) in
  findex r = 7.8 /\ folded r = 3.8 /\
  output r = Some 0 /\ claimed_loop_output r = Some 1.6.
Proof.
  intros r.
  assert (Hx : findex r = 7.8) by (cbn; lra).
  assert (Hl : loops r = 1%Z).
  { unfold loops. rewrite Hx. apply Zfloor_eq. calc. }
  assert (Hf : folded r = 3.8).
  { unfold folded. rewrite Hl, Hx. calc. }
  split; [exact Hx |]. split; [exact Hf |]. split.
  - rewrite output_fold.
    + unfold folded_output. rewrite Hf.
      rewrite (Zfloor_eq 3) by lra. reflexivity.
    + cbn. lia.
    + rewrite Hx. calc.
    + rewrite Hx. calc.
  - unfold claimed_loop_output.
    replace (IZR (iloop_bgn r) +
             Rmod (findex r - IZR (iloop_bgn r)) (iloop_end r - iloop_bgn r))
      with (folded r) by (unfold folded, Rmod, loops; ring).
    rewrite Hf. rewrite (Zfloor_eq 3) by lra. cbn.
    f_equal. lra.
Qed.

(** C4: with looping disabled on a three-frame source, the index 3 (reset,
    then three [next()] calls at speed 1) makes [output()] read the frame
    after the last one, outside the buffer, and the index 2.0005, just
    past the last frame, yields 0; the final sample, 3, is returned at
    neither. *)
Theorem end_of_source_misses_final_sample :
  let src := AudioData.mk [1; 2; 3] 3 44100 1 in
  let r := ticks next 3 (reset (ctor src 0 1 0 0)) in
  AudioData.data src (AudioData.frames src - 1) = Some 3 /\
  findex r = 3 /\ output r = None /\
  output (set_findex 2.0005 r) = Some 0.
Proof.
  intros src r.
  assert (Hx : findex r = 3) by (cbn; lra).
  split; [reflexivity |]. split; [exact Hx |]. split.
  - rewrite output_past_end.
    + rewrite Hx, (Zfloor_eq 3) by lra. cbn.
      rewrite Rltb_true by lra. reflexivity.
    + cbn. lia.
    + cbn. lia.
    + cbn. lia.
    + reflexivity.
    + rewrite Hx. calc.
  - rewrite output_past_end.
    + cbn [findex set_findex]. rewrite (Zfloor_eq 2) by lra. reflexivity.
    + cbn. lia.
    + cbn. lia.
    + cbn. lia.
    + reflexivity.
    + calc.
Qed.

(** C9: a newly constructed resampler has the index 0.8, not 0; on a
    source of at least two frames its first [output()] interpolates frame
    0 and frame 1 with the weight 0.8 on frame 1; [reset()] sets the index
    to 0, while [pitchOffset] leaves it and [next()] adds the speed. *)
Theorem fresh_resampler_index (ad : AudioData.t) (channel lb le : Z)
    (factor a b : R) :
  (0 <= lb)%Z ->
  (2 <= AudioData.frames ad)%Z ->
  AudioData.data ad (0 * AudioData.channels ad + channel) = Some a ->
  AudioData.data ad (1 * AudioData.channels ad + channel) = Some b ->
  let r := ctor ad channel factor lb le in
  findex r = 0.8 /\ findex r <> 0 /\
  output r = Some ((1 - 0.8) * a + b * 0.8) /\
  findex (reset r) = 0 /\
  (forall (c : R) (r' : t), findex (pitchOffset c r') = findex r') /\
  (forall r' : t, findex (next r') = findex r' + speedup r').
Proof.
  intros Hlb Hfr Ha Hb r.
  split; [reflexivity |]. split; [cbn; lra |].
  split; [| split; [reflexivity | split; reflexivity]].
  unfold output. rewrite (position_plain r 0).
  - replace (0 + 1 <? AudioData.frames (audio_data r))%Z with true
      by (symmetry; apply Z.ltb_lt; cbn; lia).
    cbn [audio_data ichannel r ctor findex]. fold (AudioData.channels ad).
    change (0 + 1)%Z with 1%Z. rewrite Ha, Hb. f_equal. lra.
  - cbn. destruct (lb <? le)%Z eqn:Hlt; [| reflexivity].
    apply Z.ltb_lt in Hlt. cbn [andb]. apply Rltb_false.
    assert (1 <= IZR le) by (apply IZR_le; lia). lra.
  - cbn. lra.
  - cbn. lra.
Qed.

Lemma fresh_resampler_index_witness :
  output (ctor (AudioData.mk [1; 2; 3] 3 44100 1) 0 1 0 0)
  = Some ((1 - 0.8) * 1 + 2 * 0.8).
Proof.
  apply (fresh_resampler_index (AudioData.mk [1; 2; 3] 3 44100 1) 0 0 0 1 1 2).
  - lia.
  - cbn. lia.
  - reflexivity.
  - reflexivity.
Defined.

End Resampler.

(** ** The voice pool *)

Section Pool.

Import WavetableSynth.

Variable load : string -> AudioData.t.
Variable phase0 : Resample.t.

(** The slot following [newest], wrapping at the capacity of the pool. *)
Local Abbreviation following s :=
  (if (newest s + 1 =? MAX_NOTES)%Z then 0%Z else (newest s + 1)%Z).

(** *** The scan never records a free slot *)

Lemma scan_loop_open (l : list Note) (note : Z) (count : nat) (i idx : Z) :
  scan_loop l note count i (-1) = Open idx -> idx = (-1)%Z.
Proof.
  revert i. induction count as [| c IH]; intros i; cbn.
  - intros [= <-]. reflexivity.
  - destruct (l !! Z.to_nat i) as [n |]; [| intros [= <-]; reflexivity].
    destruct (key n =? note)%Z; [discriminate |]. apply IH.
Qed.

Lemma scans_open (s : t) (note idx : Z) :
  scans s note = Open idx -> idx = (-1)%Z.
Proof.
  unfold scans.
  destruct (scan_loop _ _ _ (newest s) _) as [i | index] eqn:H1;
    [discriminate |].
  apply scan_loop_open in H1. subst index. apply scan_loop_open.
Qed.

Lemma chosen_slot_following (s : t) (note slot : Z) :
  chosen_slot s note = Some slot -> slot = following s.
Proof.
  unfold chosen_slot. destruct (scans s note) as [i | index] eqn:H;
    [discriminate |].
  apply scans_open in H. subst index. cbn. now intros [= <-].
Qed.

Lemma scan_loop_absent (l : list Note) (note : Z) (count : nat) (i idx : Z) :
  Forall (fun n => key n <> note) l ->
  exists idx', scan_loop l note count i idx = Open idx'.
Proof.
  intros Hl. revert i idx. induction count as [| c IH]; intros i idx; cbn.
  - now exists idx.
  - destruct (l !! Z.to_nat i) as [n |] eqn:Hn; [| now exists idx].
    rewrite Forall_lookup in Hl. specialize (Hl _ _ Hn).
    apply Z.eqb_neq in Hl. rewrite Hl. apply IH.
Qed.

Lemma scan_loop_held (l : list Note) (note : Z) (count : nat) (i idx j : Z) :
  (0 <= i)%Z ->
  scan_loop l note count i idx = Held j ->
  (i <= j < i + Z.of_nat count)%Z /\
  exists n, l !! Z.to_nat j = Some n /\ key n = note.
Proof.
  revert i idx. induction count as [| c IH]; intros i idx Hi; cbn - [Z.of_nat].
  - discriminate.
  - destruct (l !! Z.to_nat i) as [n |] eqn:Hn; [| discriminate].
    destruct (key n =? note)%Z eqn:Hk.
    + intros [= <-]. split; [lia |]. exists n. split; [exact Hn |].
      now apply Z.eqb_eq.
    + intros H. apply IH in H; [| lia]. destruct H as [Hr Hx].
      split; [lia | exact Hx].
Qed.

(** The early return: the voice the scan stops at holds the key. *)
Lemma scans_held (s : t) (note j : Z) :
  (0 <= newest s)%Z ->
  scans s note = Held j ->
  exists n, playing s !! Z.to_nat j = Some n /\ key n = note.
Proof.
  intros Hnew. unfold scans.
  destruct (scan_loop _ _ _ (newest s) _) as [i | index] eqn:H1.
  - intros [= <-]. now apply scan_loop_held in H1.
  - intros H2. apply scan_loop_held in H2; [apply H2 | lia].
Qed.

Lemma scans_absent (s : t) (note : Z) :
  Forall (fun n => key n <> note) (playing s) ->
  scans s note = Open (-1).
Proof.
  intros Hl.
  destruct (scans s note) as [i | index] eqn:H.
  - exfalso. unfold scans in H.
    destruct (scan_loop_absent (playing s) note
                (Z.to_nat (MAX_NOTES - newest s)) (newest s) (-1) Hl)
      as [idx1 H1].
    rewrite H1 in H.
    destruct (scan_loop_absent (playing s) note
                (Z.to_nat (newest s)) 0 idx1 Hl) as [idx2 H2].
    rewrite H2 in H. discriminate.
  - f_equal. now apply scans_open in H.
Qed.

(** *** The invariant *)

Lemma Play_sets_phase (r : R) (n : Note) :
  Play load r n = set_phase (phase (Play load r n)) n.
Proof.
  unfold Play. destruct (inst n); try (destruct n; reflexivity).
  repeat (destruct (_ <? _)%Z; [reflexivity |]). reflexivity.
Qed.

Lemma inst_Play (r : R) (n : Note) : inst (Play load r n) = inst n.
Proof. now rewrite Play_sets_phase. Qed.

Lemma key_Play (r : R) (n : Note) : key (Play load r n) = key n.
Proof. now rewrite Play_sets_phase. Qed.

Lemma vel_Play (r : R) (n : Note) : vel (Play load r n) = vel n.
Proof. now rewrite Play_sets_phase. Qed.

Lemma env_Play (r : R) (n : Note) : env (Play load r n) = env n.
Proof. now rewrite Play_sets_phase. Qed.

Lemma inst_Note_next (n : Note) : inst (Note_next n) = inst n.
Proof.
  unfold Note_next. destruct (key n =? -1)%Z; [reflexivity |].
  destruct (ADSR.mode (env n)); try reflexivity.
  destruct (Rltb _ _); reflexivity.
Qed.

Lemma following_range (s : t) :
  (0 <= newest s < MAX_NOTES)%Z ->
  (0 <= following s < MAX_NOTES)%Z /\ following s <> newest s.
Proof.
  unfold MAX_NOTES. intros H0.
  destruct (newest s + 1 =? 10)%Z eqn:H;
    [apply Z.eqb_eq in H | apply Z.eqb_neq in H]; lia.
Qed.

Lemma wf_at_slot (i : Z) (f : Note -> Note) (s : t) :
  (forall n, inst n = patch s -> inst (f n) = patch s) ->
  wf s -> wf (at_slot i f s).
Proof.
  intros Hf (Hlen & Hnew & Hinst). unfold wf, at_slot. cbn.
  rewrite length_alter. split; [exact Hlen |]. split; [exact Hnew |].
  apply Forall_alter; [exact Hinst |]. intros n _. apply Hf.
Qed.

Lemma wf_ctor (R0 : Z) : wf (ctor load phase0 R0).
Proof.
  unfold wf, ctor. cbn [playing newest patch]. rewrite length_replicate.
  repeat split; try (unfold MAX_NOTES; lia).
  apply Forall_replicate. unfold Note_ctor. now rewrite inst_Play.
Qed.

Lemma wf_next (s : t) : wf s -> wf (next s).
Proof.
  intros (Hlen & Hnew & Hinst). unfold wf, next.
  destruct (Reqb 0 (vibrato s)); cbn; rewrite ?length_fmap;
    (repeat split; try assumption; try lia);
    rewrite ?Forall_fmap; eapply Forall_impl; try exact Hinst;
    intros n Hn; cbn; now rewrite inst_Note_next.
Qed.

Lemma wf_onNoteOff (chan note : Z) (s : t) : wf s -> wf (onNoteOff chan note s).
Proof.
  intros (Hlen & Hnew & Hinst). unfold wf, onNoteOff. cbn.
  rewrite length_fmap. repeat split; try assumption; try lia.
  rewrite Forall_fmap. eapply Forall_impl; [exact Hinst |].
  intros n Hn. cbn. now destruct (key n =? _)%Z.
Qed.

Lemma wf_onPitchWheelChange (chan : Z) (value : R) (s : t) :
  wf s -> wf (onPitchWheelChange chan value s).
Proof.
  intros (Hlen & Hnew & Hinst). unfold wf, onPitchWheelChange. cbn.
  rewrite length_fmap. repeat split; try assumption; try lia.
  rewrite Forall_fmap. eapply Forall_impl; [exact Hinst |].
  intros n Hn. exact Hn.
Qed.

Lemma wf_onPatchChange (chan value : Z) (s : t) :
  wf s -> wf (onPatchChange load phase0 chan value s).
Proof.
  intros (Hlen & Hnew & Hinst). unfold wf, onPatchChange. cbn.
  rewrite length_fmap. repeat split; try assumption; try lia.
  rewrite Forall_fmap. apply Forall_forall. intros n _. cbn.
  unfold Note_ctor. now rewrite inst_Play.
Qed.

Lemma wf_assign (note velocity : Z) (s : t) :
  wf s -> wf (assign load note velocity (Z.max 0 (newest s)) (-1) s).
Proof.
  intros Hwf. unfold assign.
  change (-1 <? 0)%Z with true. cbn match.
  destruct (following_range s) as [Hr _]; [apply Hwf |].
  set (idx := following s) in *.
  match goal with
  | |- wf (set_newest idx ?x) =>
      assert (Hx : wf x);
      [| destruct Hx as (H1 & H2 & H3); split; [exact H1 |];
         split; [exact Hr | exact H3] ]
  end.
  repeat (apply wf_at_slot;
          [intros n Hn; cbn; rewrite ?inst_Play;
           solve [reflexivity | exact Hn] |]).
  exact Hwf.
Qed.

Lemma wf_onNoteOn (chan note velocity : Z) (s : t) :
  wf s -> wf (onNoteOn load chan note velocity s).
Proof.
  intros Hwf. unfold onNoteOn.
  destruct (scans s _) as [i | index] eqn:H.
  - apply wf_at_slot; [intros n Hn; exact Hn | exact Hwf].
  - apply scans_open in H. subst index. now apply wf_assign.
Qed.

Lemma reachable_wf (s : t) : reachable load phase0 s -> wf s.
Proof.
  induction 1.
  - apply wf_ctor.
  - now apply wf_next.
  - exact IHreachable.
  - now apply wf_onNoteOff.
  - now apply wf_onNoteOn.
  - now apply wf_onPatchChange.
  - now apply wf_onPitchWheelChange.
  - exact IHreachable.
Qed.

(** *** Note-on *)

Lemma to_short_id (z : Z) : (- 2 ^ 15 <= z < 2 ^ 15)%Z -> to_short z = z.
Proof. intros H. unfold to_short. rewrite Z.mod_small; lia. Qed.

Lemma set_inst_same (n : Note) (v : Voice) : inst n = v -> set_inst v n = n.
Proof. intros <-. now destruct n. Qed.

(** The pool after the assignment statements of [onNoteOn], entered with
    no free slot recorded: the slot following [newest] is rewritten, every
    other slot is as before. *)
Lemma assign_following (note velocity : Z) (s : t) (n0 : Note) :
  wf s ->
  playing s !! Z.to_nat (following s) = Some n0 ->
  let s' := assign load note velocity (Z.max 0 (newest s)) (-1) s in
  newest s' = following s /\
  patch s' = patch s /\
  playing s' !! Z.to_nat (following s) =
    Some (set_env (ADSR.reset (env n0))
            (Play load (rate s)
               (mkNote (to_short note) (IZR velocity * RATIO_7BIT)
                  (patch s) (phase n0) (env n0)))) /\
  (forall j : nat,
     j <> Z.to_nat (following s) -> playing s' !! j = playing s !! j).
Proof.
  intros Hwf Hn0 s'. subst s'. unfold assign.
  change (-1 <? 0)%Z with true. cbn match.
  destruct Hwf as (Hlen & Hnew & Hinst).
  destruct (following_range s Hnew) as [Hr Hne].
  remember (following s) as idx eqn:Hidx. clear Hidx.
  assert (Hi : Z.to_nat (Z.max 0 (newest s)) <> Z.to_nat idx) by lia.
  rewrite Forall_lookup in Hinst.
  split; [reflexivity |]. split; [reflexivity |]. split.
  - cbn [playing at_slot set_playing set_newest].
    rewrite !list_lookup_alter_eq, list_lookup_alter_ne by exact Hi.
    rewrite !list_lookup_alter_eq, Hn0. cbn [fmap option_fmap option_map].
    rewrite env_Play, <- (Hinst _ _ Hn0). reflexivity.
  - intros j Hj. cbn [playing at_slot set_playing set_newest].
    rewrite !(list_lookup_alter_ne _ _ (Z.to_nat idx) j)
        by (intros Heq; exact (Hj (eq_sym Heq))).
    destruct (decide (Z.to_nat (Z.max 0 (newest s)) = j)) as [<- | Hnj].
    + rewrite list_lookup_alter_eq.
      rewrite !(list_lookup_alter_ne _ _ (Z.to_nat idx))
        by (intros Heq; apply Hi; now rewrite Heq).
      destruct (playing s !! Z.to_nat (Z.max 0 (newest s))) as [n |] eqn:Hn;
        [| reflexivity].
      cbn. f_equal. apply set_inst_same. exact (Hinst _ _ Hn).
    + rewrite list_lookup_alter_ne by exact Hnj.
      rewrite !(list_lookup_alter_ne _ _ (Z.to_nat idx) j)
        by (intros Heq; exact (Hj (eq_sym Heq))).
      reflexivity.
Qed.

(** What the call writes.  A note-on for a key that no voice holds,
    received in a state that satisfies the pool invariant, writes the slot
    at the final value of [index] (by [chosen_slot_following] the slot
    following ["newest"]): afterwards that slot holds the key
    [note * 100], the velocity times 1/127 (within [0,1] for a MIDI
    velocity) and the current patch as its instrument; it is the former
    content with [Play] and then the envelope reset applied (the envelope
    is in Attack at amplitude 0); ["newest"] is that slot; every other
    slot is unchanged. *)
Lemma noteOn_fills_chosen_slot (s : t) (chan note velocity : Z) :
  wf s ->
  (0 <= note <= 127)%Z ->
  Forall (fun n => key n <> (note * 100)%Z) (playing s) ->
  let s' := onNoteOn load chan note velocity s in
  exists (slot : Z) (n0 n1 : Note),
    chosen_slot s (note * 100) = Some slot /\
    (0 <= slot < MAX_NOTES)%Z /\
    playing s !! Z.to_nat slot = Some n0 /\
    playing s' !! Z.to_nat slot = Some n1 /\
    key n1 = (note * 100)%Z /\
    vel n1 = IZR velocity * RATIO_7BIT /\
    ((0 <= velocity <= 127)%Z -> 0 <= vel n1 <= 1) /\
    inst n1 = patch s' /\
    n1 = set_env (ADSR.reset (env n0))
           (Play load (rate s)
              (mkNote (note * 100) (IZR velocity * RATIO_7BIT)
                 (patch s) (phase n0) (env n0))) /\
    ADSR.mode (env n1) = ADSR.ATTACK /\ ADSR.output (env n1) = 0 /\
    newest s' = slot /\
    (forall j : nat,
       j <> Z.to_nat slot -> playing s' !! j = playing s !! j).
Proof.
  intros Hwf Hnote Habs s'.
  pose proof (scans_absent s (note * 100) Habs) as Hscan.
  destruct (following_range s) as [Hr Hne]; [apply Hwf |].
  destruct (lookup_lt_is_Some_2 (playing s) (Z.to_nat (following s)))
    as [n0 Hn0].
  { destruct Hwf as (Hlen & _). rewrite Hlen. lia. }
  destruct (assign_following (note * 100) velocity s n0 Hwf Hn0)
    as (Hnew & Hpatch & Hslot & Hrest).
  rewrite to_short_id in Hslot by lia.
  assert (Hs' : s' = assign load (note * 100) velocity
                       (Z.max 0 (newest s)) (-1) s).
  { subst s'. unfold onNoteOn.
    change (note * CENTS_SCALE)%Z with (note * 100)%Z.
    now rewrite Hscan. }
  rewrite <- Hs' in Hnew, Hpatch, Hslot, Hrest.
  eexists (following s), n0, _.
  split; [unfold chosen_slot; now rewrite Hscan |].
  split; [exact Hr |]. split; [exact Hn0 |]. split; [exact Hslot |].
  split; [cbn; now rewrite key_Play |].
  split; [cbn; now rewrite vel_Play |].
  split.
  { intros Hv. cbn. rewrite vel_Play. cbn. unfold RATIO_7BIT.
    assert (0 <= IZR velocity <= 127)
      by (split; apply IZR_le; lia).
    lra. }
  split; [cbn; rewrite inst_Play; cbn; now rewrite Hpatch |].
  split; [reflexivity |]. split; [reflexivity |]. split; [reflexivity |].
  split; [exact Hnew | exact Hrest].
Qed.

(** *** The per-sample tick *)

Lemma next_zero_vibrato (s : t) :
  vibrato s = 0 -> next s = set_playing (Note_next <$> playing s) s.
Proof. intros H. unfold next. now rewrite Reqb_true. Qed.

Lemma next_vibrato (s : t) :
  vibrato s <> 0 ->
  let t0 := mphase s + dphase s in
  let mphase1 := if Rleb t0 TWO_PI then t0 else t0 - TWO_PI in
  let mod1 := vibrato s * sin mphase1 in
  next s =
    mk (Note_next <$> (repitch (mod1 + bend s) <$> playing s))
       (bend s) (rate s) (vibrato s) mod1 (vol s) mphase1 (dphase s)
       (newest s) (patch s).
Proof.
  intros H. cbn zeta. unfold next.
  rewrite Reqb_false by (intros Heq; apply H; now rewrite <- Heq).
  reflexivity.
Qed.

Lemma Note_next_inactive (n : Note) : key n = (-1)%Z -> Note_next n = n.
Proof. intros H. unfold Note_next. now rewrite H. Qed.




Lemma Rpower_2_inj (x y : R) : Rpower 2 x = Rpower 2 y -> x = y.
Proof.
  unfold Rpower. intros H. apply exp_inv in H.
  assert (0 < ln 2) by (rewrite <- ln_1; apply ln_increasing; lra).
  apply Rmult_eq_reg_r with (ln 2); [exact H | lra].
Qed.

Lemma pitch_speed_neq (m c1 c2 : R) :
  m <> 0 -> c1 <> c2 ->
  m * Rpower 2 (c1 * Resample.OCTAVE_CENTILES)
  <> m * Rpower 2 (c2 * Resample.OCTAVE_CENTILES).
Proof.
  intros Hm Hc H. apply Rmult_eq_reg_l in H; [| exact Hm].
  apply Rpower_2_inj in H. unfold Resample.OCTAVE_CENTILES in H. lra.
Qed.

(** C8, as amended: with a nonzero vibrato depth, one [next()] advances
    the modulation phase by [dphase], subtracting 2 pi when the sum
    exceeds it, sets the modulation to vibrato times the sine of the new
    phase, and pushes the pitch offset (modulation + pitch bend + key -
    6900) to the resampler of every voice, the inactive ones included,
    whose key -1 enters the offset; then [Note::next()] runs on every
    voice, and leaves an inactive voice as re-pitched. *)
Theorem vibrato_tick_repitches_every_voice (s : t) :
  vibrato s <> 0 ->
  let t0 := mphase s + dphase s in
  let mphase1 := if Rleb t0 TWO_PI then t0 else t0 - TWO_PI in
  let mod1 := vibrato s * sin mphase1 in
  let s' := next s in
  mphase s' = mphase1 /\ mod_ s' = mod1 /\
  forall (j : nat) (n : Note),
    playing s !! j = Some n ->
    playing s' !! j = Some (Note_next (repitch (mod1 + bend s) n)) /\
    Resample.speedup (phase (repitch (mod1 + bend s) n)) =
      Resample.multiplier (phase n)
      * Rpower 2 ((mod1 + bend s + IZR (key n) - A440_CENTS)
                  * Resample.OCTAVE_CENTILES) /\
    (key n = (-1)%Z ->
     playing s' !! j = Some (repitch (mod1 + bend s) n)).
Proof.
  intros Hv t0 mphase1 mod1 s'. subst s'.
  rewrite (next_vibrato s Hv). fold t0 mphase1 mod1.
  cbn [mphase mod_ playing].
  split; [reflexivity |]. split; [reflexivity |].
  intros j n Hn. rewrite !list_lookup_fmap, Hn.
  split; [reflexivity |]. split; [reflexivity |].
  intros Hk. cbn. f_equal. now apply Note_next_inactive.
Qed.


(** *** The slot choice on reachable states *)

Lemma key_Note_next (n : Note) : key (Note_next n) = next_key (tag n).
Proof.
  unfold Note_next, next_key, tag.
  destruct (key n =? -1)%Z eqn:Hk.
  - apply Z.eqb_eq in Hk. rewrite Hk.
    destruct (ADSR.mode (env n)); try reflexivity.
    now destruct (Rltb _ _).
  - destruct (ADSR.mode (env n)); try reflexivity.
    now destruct (Rltb _ _).
Qed.

Lemma keys_next_zero_vibrato (s : t) :
  vibrato s = 0 ->
  key <$> playing (next s) = next_key <$> (tag <$> playing s).
Proof.
  intros Hv. rewrite (next_zero_vibrato s Hv). cbn [playing set_playing].
  rewrite <- !list_fmap_compose. apply list_fmap_ext.
  intros i n _. apply key_Note_next.
Qed.

(** The keys of the pool after a note-on for a key that no voice holds. *)
Lemma keys_onNoteOn (s : t) (chan note velocity : Z) :
  wf s ->
  (0 <= note <= 127)%Z ->
  Forall (fun k => k <> (note * 100)%Z) (key <$> playing s) ->
  key <$> playing (onNoteOn load chan note velocity s)
    = <[Z.to_nat (following s) := (note * 100)%Z]> (key <$> playing s) /\
  newest (onNoteOn load chan note velocity s) = following s.
Proof.
  intros Hwf Hnote Habs. rewrite Forall_fmap in Habs.
  pose proof (scans_absent s (note * 100) Habs) as Hscan.
  destruct (following_range s) as [Hr Hne]; [apply Hwf |].
  destruct (lookup_lt_is_Some_2 (playing s) (Z.to_nat (following s)))
    as [n0 Hn0].
  { destruct Hwf as (Hlen & _). rewrite Hlen. lia. }
  destruct (assign_following (note * 100) velocity s n0 Hwf Hn0)
    as (Hnew & _ & Hslot & Hrest).
  rewrite to_short_id in Hslot by lia.
  unfold onNoteOn. change (note * CENTS_SCALE)%Z with (note * 100)%Z.
  rewrite Hscan. split; [| exact Hnew].
  apply list_eq. intros j. rewrite list_lookup_fmap.
  destruct (decide (j = Z.to_nat (following s))) as [-> | Hj].
  - rewrite Hslot, list_lookup_insert_eq.
    + cbn. now rewrite key_Play.
    + rewrite length_fmap. destruct Hwf as (Hlen & _). rewrite Hlen. lia.
  - rewrite (Hrest j Hj), list_lookup_insert_ne by (intros Heq; now apply Hj).
    now rewrite list_lookup_fmap.
Qed.

(** C1: the scan never records a free slot, so a note-on for a key that
    no voice holds always takes the slot following ["newest"].  On the
    pool as constructed (all ten slots inactive, ["newest"] = 0) the first
    inactive slot in scan order is slot 0, and note 60 goes to slot 1.
    After notes 60 to 69 are switched on, note 64 is switched off and one
    [next()] has run, slot 5 is inactive, the other nine voices sound and
    ["newest"] = 0: the first inactive slot in scan order is slot 5, and
    note 72 replaces the sounding voice of slot 1. *)
Theorem free_slot_is_passed_over :
  (forall (s : t) (note slot : Z),
     chosen_slot s note = Some slot -> slot = following s) /\
  (let s0 := ctor load phase0 44100 in
   let s1 := onNoteOn load 0 60 100 s0 in
   key <$> playing s0 = [-1; -1; -1; -1; -1; -1; -1; -1; -1; -1]%Z /\
   newest s0 = 0%Z /\
   claimed_slot (key <$> playing s0) (newest s0) = 0%Z /\
   key <$> playing s1 = [-1; 6000; -1; -1; -1; -1; -1; -1; -1; -1]%Z /\
   newest s1 = 1%Z) /\
  (let s0 :=
     next (onNoteOff 0 64
             (notes_on load [60; 61; 62; 63; 64; 65; 66; 67; 68; 69]%Z
                (ctor load phase0 44100))) in
   let s1 := onNoteOn load 0 72 100 s0 in
   key <$> playing s0
     = [6900; 6000; 6100; 6200; 6300; -1; 6500; 6600; 6700; 6800]%Z /\
   newest s0 = 0%Z /\
   claimed_slot (key <$> playing s0) (newest s0) = 5%Z /\
   key <$> playing s1
     = [6900; 7200; 6100; 6200; 6300; -1; 6500; 6600; 6700; 6800]%Z /\
   newest s1 = 1%Z).
Proof.
  split; [exact chosen_slot_following |].
  split; [repeat split; reflexivity |].
  intros s0 s1.
  assert (Hk : key <$> playing s0
               = [6900; 6000; 6100; 6200; 6300; -1; 6500; 6600; 6700; 6800]%Z).
  { subst s0. rewrite keys_next_zero_vibrato by reflexivity.
    match goal with
    | |- next_key <$> ?l = _ =>
        change l
          with [(6900%Z, ADSR.ATTACK, 0); (6000%Z, ADSR.ATTACK, 0);
                (6100%Z, ADSR.ATTACK, 0); (6200%Z, ADSR.ATTACK, 0);
                (6300%Z, ADSR.ATTACK, 0); (6400%Z, ADSR.RELEASE, 0);
                (6500%Z, ADSR.ATTACK, 0); (6600%Z, ADSR.ATTACK, 0);
                (6700%Z, ADSR.ATTACK, 0); (6800%Z, ADSR.ATTACK, 0)]
    end.
    cbn. unfold EPSILON. rewrite Rltb_true by lra. reflexivity. }
  assert (Hn : newest s0 = 0%Z).
  { subst s0. rewrite next_zero_vibrato by reflexivity. reflexivity. }
  assert (Hwf : wf s0).
  { subst s0. apply reachable_wf.
    apply reach_next, reach_off. unfold notes_on. cbn [fold_left].
    repeat apply reach_on. apply reach_ctor. }
  split; [exact Hk |]. split; [exact Hn |].
  split; [rewrite Hk, Hn; reflexivity |].
  destruct (keys_onNoteOn s0 0 72 100 Hwf) as [Hk1 Hn1].
  - lia.
  - rewrite Hk. repeat constructor; lia.
  - fold s1 in Hk1, Hn1. rewrite Hk1, Hn1, Hk, Hn. split; reflexivity.
Qed.

(** The first inactive slot in scan order, where it is not the slot
    following [newest], is a slot of the pool and holds an inactive
    voice. *)
Lemma claimed_slot_inactive (s : t) :
  (0 <= newest s < MAX_NOTES)%Z ->
  claimed_slot (key <$> playing s) (newest s) <> following s ->
  (0 <= claimed_slot (key <$> playing s) (newest s) < MAX_NOTES)%Z /\
  exists n : Note,
    playing s !! Z.to_nat (claimed_slot (key <$> playing s) (newest s))
    = Some n /\
    (key n < 0)%Z.
Proof.
  intros Hn Hc. unfold claimed_slot in *.
  destruct (List.find _ _) as [i |] eqn:Hf;
    [| exfalso; apply Hc; reflexivity].
  apply find_some in Hf as [Hin Hi]. split.
  - unfold scan_order in Hin. apply in_app_or in Hin.
    rewrite <- !list_elem_of_In, !elem_of_seqZ in Hin.
    unfold MAX_NOTES in *. lia.
  - unfold inactive_at in Hi. rewrite list_lookup_fmap in Hi.
    destruct (playing s !! Z.to_nat i) as [n |]; [| discriminate].
    cbn in Hi. exists n. split; [reflexivity |]. now apply Z.ltb_lt.
Qed.

(** The pool after notes 60 to 69 are switched on, note 64 is switched
    off and one [next()] has run. *)
Lemma one_voice_released :
  let s0 :=
    next (onNoteOff 0 64
            (notes_on load [60; 61; 62; 63; 64; 65; 66; 67; 68; 69]%Z
               (ctor load phase0 44100))) in
  wf s0 /\
  key <$> playing s0
    = [6900; 6000; 6100; 6200; 6300; -1; 6500; 6600; 6700; 6800]%Z /\
  newest s0 = 0%Z.
Proof.
  intros s0. split; [| split].
  - subst s0. apply reachable_wf.
    apply reach_next, reach_off. unfold notes_on. cbn [fold_left].
    repeat apply reach_on. apply reach_ctor.
  - subst s0. rewrite keys_next_zero_vibrato by reflexivity.
    match goal with
    | |- next_key <$> ?l = _ =>
        change l
          with [(6900%Z, ADSR.ATTACK, 0); (6000%Z, ADSR.ATTACK, 0);
                (6100%Z, ADSR.ATTACK, 0); (6200%Z, ADSR.ATTACK, 0);
                (6300%Z, ADSR.ATTACK, 0); (6400%Z, ADSR.RELEASE, 0);
                (6500%Z, ADSR.ATTACK, 0); (6600%Z, ADSR.ATTACK, 0);
                (6700%Z, ADSR.ATTACK, 0); (6800%Z, ADSR.ATTACK, 0)]
    end.
    cbn. unfold EPSILON. rewrite Rltb_true by lra. reflexivity.
  - subst s0. rewrite next_zero_vibrato by reflexivity. reflexivity.
Qed.

(** C2: the slot the specification names (the first inactive slot in
    scan order, else the stolen one) is not the slot the call writes.
    Whenever that slot is not the slot following ["newest"], a note-on
    for a key that no voice holds leaves it exactly as it was, an
    inactive voice (key below 0, so not [note * 100]), and sets
    ["newest"] to another slot; key, velocity, [Play] and the envelope
    reset go to the slot following ["newest"].  On the pool as
    constructed the specified slot is slot 0: after note 60 at velocity
    100 it still has key -1 and velocity 0, slot 1 has key 6000 and
    ["newest"] is 1.  With notes 60 to 69 switched on, note 64 switched
    off and one [next()] run, the specified slot is slot 5: after note 72
    it still has key -1, the sounding voice of slot 1 has been given key
    7200 and ["newest"] is 1. *)
Theorem claimed_slot_is_left_untouched :
  (forall (s : t) (chan note velocity : Z),
     wf s ->
     (0 <= note <= 127)%Z ->
     Forall (fun n => key n <> (note * 100)%Z) (playing s) ->
     let c := claimed_slot (key <$> playing s) (newest s) in
     let s' := onNoteOn load chan note velocity s in
     c <> following s ->
     (exists n : Note,
        playing s !! Z.to_nat c = Some n /\
        playing s' !! Z.to_nat c = Some n /\
        (key n < 0)%Z /\ key n <> (note * 100)%Z) /\
     newest s' <> c /\
     newest s' = following s /\
     exists n1 : Note,
       playing s' !! Z.to_nat (following s) = Some n1 /\
       key n1 = (note * 100)%Z /\
       vel n1 = IZR velocity * RATIO_7BIT) /\
  (let s0 := ctor load phase0 44100 in
   let s1 := onNoteOn load 0 60 100 s0 in
   claimed_slot (key <$> playing s0) (newest s0) = 0%Z /\
   key <$> playing s1 !! 0%nat = Some (-1)%Z /\
   vel <$> playing s1 !! 0%nat = Some 0 /\
   key <$> playing s1 !! 1%nat = Some 6000%Z /\
   newest s1 = 1%Z) /\
  (let s0 :=
     next (onNoteOff 0 64
             (notes_on load [60; 61; 62; 63; 64; 65; 66; 67; 68; 69]%Z
                (ctor load phase0 44100))) in
   let s1 := onNoteOn load 0 72 100 s0 in
   claimed_slot (key <$> playing s0) (newest s0) = 5%Z /\
   playing s1 !! 5%nat = playing s0 !! 5%nat /\
   key <$> playing s1 !! 5%nat = Some (-1)%Z /\
   key <$> playing s0 !! 1%nat = Some 6000%Z /\
   key <$> playing s1 !! 1%nat = Some 7200%Z /\
   newest s1 = 1%Z).
Proof.
  assert (Hgen :
    forall (s : t) (chan note velocity : Z),
      wf s ->
      (0 <= note <= 127)%Z ->
      Forall (fun n => key n <> (note * 100)%Z) (playing s) ->
      let c := claimed_slot (key <$> playing s) (newest s) in
      let s' := onNoteOn load chan note velocity s in
      c <> following s ->
      (exists n : Note,
         playing s !! Z.to_nat c = Some n /\
         playing s' !! Z.to_nat c = Some n /\
         (key n < 0)%Z /\ key n <> (note * 100)%Z) /\
      newest s' <> c /\
      newest s' = following s /\
      exists n1 : Note,
        playing s' !! Z.to_nat (following s) = Some n1 /\
        key n1 = (note * 100)%Z /\
        vel n1 = IZR velocity * RATIO_7BIT).
  { intros s chan note velocity Hwf Hnote Habs c s' Hc.
    destruct (claimed_slot_inactive s) as (Hr & n & Hn & Hk);
      [apply Hwf | exact Hc |].
    fold c in Hr, Hn.
    destruct (noteOn_fills_chosen_slot s chan note velocity Hwf Hnote Habs)
      as (slot & n0 & n1 & Hslot & Hsr & _ & Hn1 & Hk1 & Hv1 & _ & _ & _
          & _ & _ & Hnew & Hrest).
    apply chosen_slot_following in Hslot. fold s' in Hn1, Hnew, Hrest.
    rewrite Hslot in Hn1, Hnew, Hrest.
    split; [| split; [| split]].
    - exists n. split; [exact Hn |]. split.
      + rewrite Hrest; [exact Hn |]. intros Heq. apply Hc.
        destruct (following_range s) as [Hf _]; [apply Hwf |]. lia.
      + split; [exact Hk | lia].
    - rewrite Hnew. intros Heq. apply Hc. now symmetry.
    - exact Hnew.
    - exists n1. split; [exact Hn1 |]. split; [exact Hk1 | exact Hv1]. }
  split; [exact Hgen |]. split.
  - repeat split; reflexivity.
  - intros s0 s1.
    destruct one_voice_released as (Hwf & Hk & Hn). fold s0 in Hwf, Hk, Hn.
    assert (Hc : claimed_slot (key <$> playing s0) (newest s0) = 5%Z)
      by (rewrite Hk, Hn; reflexivity).
    assert (Habs : Forall (fun n => key n <> (72 * 100)%Z) (playing s0)).
    { apply Forall_fmap with (f := key) (P := fun k => k <> (72 * 100)%Z).
      rewrite Hk. repeat constructor; lia. }
    destruct (Hgen s0 0%Z 72%Z 100%Z Hwf ltac:(lia) Habs)
      as ((n & Hn0 & Hn1 & Hneg & _) & _ & Hnew & n1 & Hs1 & Hk1 & _).
    { rewrite Hc, Hn. change (5 <> 1)%Z. lia. }
    fold s1 in Hn1, Hnew, Hs1. rewrite Hc in Hn0, Hn1.
    rewrite Hn in Hnew, Hs1.
    change (Z.to_nat 5) with 5%nat in Hn0, Hn1.
    change (Z.to_nat _) with 1%nat in Hs1.
    assert (Hk5 : key <$> playing s0 !! 5%nat = Some (-1)%Z).
    { rewrite <- list_lookup_fmap, Hk. reflexivity. }
    split; [exact Hc |]. split; [now rewrite Hn0, Hn1 |].
    split; [rewrite Hn1, <- Hn0; exact Hk5 |].
    split; [rewrite <- list_lookup_fmap, Hk; reflexivity |].
    split; [rewrite Hs1; cbn; now rewrite Hk1 |].
    exact Hnew.
Qed.

End Pool.

(** *** Worked examples on the silent two-frame source *)

Section Examples.

Import WavetableSynth.

Lemma vibrato_tick_repitches_every_voice_witness :
  let s := onModulationWheelChange 0 127 (ctor load_quiet phase_quiet 44100) in
  mod_ (next s) = vibrato s * sin (mphase (next s)).
Proof.
  intros s.
  destruct (vibrato_tick_repitches_every_voice s) as (Hp & Hm & _).
  - cbn. unfold CENTS_RANGE, RATIO_7BIT, CENTS_SCALE. lra.
  - rewrite Hm, Hp. reflexivity.
Defined.


(** C8, the claim as stated fails: on the pool as constructed for a 44100
    Hz output, with the modulation wheel at 127 (vibrato depth 200), slot
    0 is inactive, and one [next()] changes the speed of its resampler. *)
Lemma vibrato_tick_repitches_inactive_voice :
  let s := onModulationWheelChange 0 127 (ctor load_quiet phase_quiet 44100) in
  vibrato s <> 0 /\
  exists n n' : Note,
    playing s !! 0%nat = Some n /\ key n = (-1)%Z /\
    playing (next s) !! 0%nat = Some n' /\ key n' = (-1)%Z /\
    Resample.speedup (phase n') <> Resample.speedup (phase n).
Proof.
  intros s.
  assert (Hv : vibrato s <> 0)
    by (cbn; unfold CENTS_RANGE, RATIO_7BIT, CENTS_SCALE; lra).
  split; [exact Hv |].
  eexists _, _. split; [reflexivity |]. split; [reflexivity |].
  rewrite (next_vibrato s Hv). cbn [playing].
  rewrite !list_lookup_fmap.
  split; [reflexivity |]. split; [reflexivity |].
  rewrite Note_next_inactive by reflexivity.
  cbn [repitch phase set_phase Resample.pitchOffset Resample.speedup].
  cbn. unfold AudioData.rate, quiet. cbn.
  rewrite Reqb_false by lra.
  pose proof PI_RGT_0 as Hpi.
  apply pitch_speed_neq; [lra |].
  unfold REV_TO_HZ, TWO_PI, CENTS_RANGE, RATIO_7BIT, CENTS_SCALE, A440_CENTS.
  rewrite Rleb_true by lra.
  assert (0 < sin (0 + 5 * (2 * PI) / 44100)) by (apply sin_gt_0; lra).
  nra.
Qed.


End Examples.

(** ** The envelope over time *)

Section EnvelopeRuns.

Import ADSR EnvelopeRun.

Lemma EXP_DECAY_pos : 0 < EXP_DECAY.
Proof.
  unfold EXP_DECAY.
  assert (0 < ln 10) by (rewrite <- ln_1; apply ln_increasing; lra).
  lra.
Qed.

Lemma Rpower_e (x : R) : Rpower (exp 1) x = exp x.
Proof. unfold Rpower. now rewrite ln_exp, Rmult_1_r. Qed.

Lemma expDegradeRate_regular (t0 rate : R) :
  t0 <> 0 -> rate <> 0 ->
  expDegradeRate t0 rate = exp (- (EXP_DECAY / t0) / rate).
Proof.
  intros Ht Hr. unfold expDegradeRate.
  rewrite !Reqb_false by assumption. apply Rpower_e.
Qed.

Lemma expDegradeRate_range (t0 rate : R) :
  0 <= t0 -> 0 <= rate -> 0 <= expDegradeRate t0 rate <= 1.
Proof.
  intros Ht Hr.
  destruct (Req_dec_T t0 0) as [-> | Ht0].
  { rewrite expDegradeRate_zero_duration. lra. }
  destruct (Req_dec_T rate 0) as [-> | Hr0].
  { rewrite expDegradeRate_zero_rate by exact Ht0. lra. }
  rewrite expDegradeRate_regular by assumption.
  pose proof EXP_DECAY_pos as Hk.
  assert (Hx : - (EXP_DECAY / t0) / rate < 0).
  { assert (0 < EXP_DECAY / t0 / rate).
    { apply Rdiv_lt_0_compat; [apply Rdiv_lt_0_compat |]; lra. }
    unfold Rdiv in *. lra. }
  pose proof (exp_pos (- (EXP_DECAY / t0) / rate)).
  apply exp_increasing in Hx. rewrite exp_0 in Hx. lra.
Qed.

Lemma expDegradeRate_strict (t0 rate : R) :
  0 < t0 -> 0 < rate -> 0 < expDegradeRate t0 rate < 1.
Proof.
  intros Ht Hr. rewrite expDegradeRate_regular by lra.
  pose proof EXP_DECAY_pos as Hk.
  assert (Hx : - (EXP_DECAY / t0) / rate < 0).
  { assert (0 < EXP_DECAY / t0 / rate).
    { apply Rdiv_lt_0_compat; [apply Rdiv_lt_0_compat |]; lra. }
    unfold Rdiv in *. lra. }
  pose proof (exp_pos (- (EXP_DECAY / t0) / rate)).
  apply exp_increasing in Hx. rewrite exp_0 in Hx. lra.
Qed.

Lemma linearDegradeRate_pos (t0 rate d s : R) :
  0 <= t0 -> 0 <= rate -> 0 < linearDegradeRate t0 rate d s.
Proof.
  intros Ht Hr. unfold linearDegradeRate, Reqb.
  destruct (Req_dec_T t0 0) as [| Ht0]; [cbn; lra |].
  destruct (Req_dec_T rate 0) as [| Hr0]; [cbn; lra |]. cbn.
  apply Rdiv_lt_0_compat; [lra |]. apply Rmult_lt_0_compat; lra.
Qed.

Lemma in_range_ctor (a d s r rate : R) :
  0 <= a -> 0 <= d -> 0 <= r -> 0 <= rate -> 0 <= s <= 1 ->
  in_range (ctor a d s r rate).
Proof.
  intros Ha Hd Hr Hrate Hs. unfold in_range, ctor. cbn.
  split; [destruct (Reqb a 0); lra |]. split; [exact Hs |].
  split; [left; now apply linearDegradeRate_pos |].
  split; now apply expDegradeRate_range.
Qed.

Lemma in_range_apply (o : op) (e : t) : in_range e -> in_range (apply o e).
Proof.
  intros (He & Hs & Hi & Hd & Hr). destruct o; cbn.
  - unfold next. destruct (current_mode e); cbn.
    + unfold Rleb. destruct (Rle_dec _ _); unfold in_range; cbn;
        repeat split; try lra.
    + unfold Rleb. destruct (Rle_dec _ _); unfold in_range; cbn;
        repeat split; try lra; nra.
    + now repeat split.
    + unfold in_range; cbn. repeat split; try lra; nra.
  - unfold in_range; cbn. repeat split; lra.
  - unfold in_range; cbn. repeat split; lra.
Qed.

Lemma in_range_run (ops : list op) (e : t) : in_range e -> in_range (run ops e).
Proof.
  revert e. induction ops as [| o ops IH]; intros e He; [exact He |].
  cbn. apply IH. now apply in_range_apply.
Qed.

(** X1: for an envelope constructed with non-negative times and sample
    rate and a sustain level in [0,1], the amplitude lies in [0,1] after
    any sequence of [next()], [reset()] and [sustainOff()] calls. *)
Theorem amplitude_stays_in_unit_interval (a d s r rate : R) (ops : list op) :
  0 <= a -> 0 <= d -> 0 <= r -> 0 <= rate -> 0 <= s <= 1 ->
  0 <= output (run ops (ctor a d s r rate)) <= 1.
Proof.
  intros Ha Hd Hr Hrate Hs.
  apply (in_range_run ops). now apply in_range_ctor.
Qed.

Lemma amplitude_stays_in_unit_interval_witness :
  0 <= output (run [Next; Next; SustainOff; Next; Reset; Next]
                 (ctor 0.01 600 0.8 4 44100)) <= 1.
Proof.
  apply amplitude_stays_in_unit_interval; lra.
Defined.

Lemma mode_apply_not_sustain (o : op) (e : t) :
  current_mode e <> SUSTAIN -> current_mode (apply o e) <> SUSTAIN.
Proof.
  intros H. destruct o; cbn; try discriminate.
  unfold next. destruct (current_mode e) eqn:Hm; cbn;
    try destruct (Rleb _ _); cbn; try discriminate; try congruence.
Qed.

(** X2: no sequence of [next()], [reset()] and [sustainOff()] calls brings
    a constructed envelope into the Sustain phase. *)
Theorem sustain_phase_never_entered (a d s r rate : R) (ops : list op) :
  mode (run ops (ctor a d s r rate)) <> SUSTAIN.
Proof.
  unfold mode.
  assert (H : current_mode (ctor a d s r rate) <> SUSTAIN) by discriminate.
  revert H. generalize (ctor a d s r rate).
  induction ops as [| o ops IH]; intros e He; [exact He |].
  cbn. apply IH. now apply mode_apply_not_sustain.
Qed.

Lemma next_factors (e : t) :
  sustain_level (next e) = sustain_level e /\
  attack_increment (next e) = attack_increment e /\
  decay_factor (next e) = decay_factor e /\
  release_factor (next e) = release_factor e.
Proof.
  unfold next. destruct (current_mode e); cbn;
    try destruct (Rleb _ _); cbn; repeat split; reflexivity.
Qed.

Lemma ticks_factors (n : nat) (e : t) :
  sustain_level (ticks next n e) = sustain_level e /\
  attack_increment (ticks next n e) = attack_increment e /\
  decay_factor (ticks next n e) = decay_factor e /\
  release_factor (ticks next n e) = release_factor e.
Proof.
  induction n as [| n (H1 & H2 & H3 & H4)]; cbn [ticks];
    [repeat split; reflexivity |].
  destruct (next_factors (ticks next n e)) as (G1 & G2 & G3 & G4).
  repeat split; congruence.
Qed.




Lemma next_decay_above (e : t) :
  current_mode e = DECAY ->
  sustain_level e < envelope e * decay_factor e ->
  envelope (next e) = envelope e * decay_factor e.
Proof.
  intros Hm Hlt. unfold next. rewrite Hm. cbn.
  rewrite Rleb_false by exact Hlt. reflexivity.
Qed.





Lemma exp_pow_INR (x : R) (n : nat) : exp x ^ n = exp (INR n * x).
Proof.
  induction n as [| n IH].
  - cbn. now rewrite Rmult_0_l, exp_0.
  - rewrite S_INR. cbn [pow]. rewrite IH, <- exp_plus. f_equal. ring.
Qed.

(** X5: the exponential factor models a drop of 96 dB over the given
    duration.  For a positive duration [t0] and sample rate, over the
    [n = t0 * rate] samples of the duration the factor multiplies the
    amplitude by 10 ^ (-96/20). *)
Theorem expDegradeRate_drops_96_dB (t0 rate : R) (n : nat) :
  0 < t0 -> 0 < rate -> INR n = t0 * rate ->
  expDegradeRate t0 rate ^ n = Rpower 10 (- 96 / 20).
Proof.
  intros Ht Hr Hn.
  rewrite expDegradeRate_regular by lra.
  rewrite exp_pow_INR, Hn. unfold Rpower, EXP_DECAY. f_equal. field. lra.
Qed.

Lemma expDegradeRate_drops_96_dB_witness :
  expDegradeRate 2 1 ^ 2 = Rpower 10 (- 96 / 20).
Proof.
  apply expDegradeRate_drops_96_dB; [lra | lra | cbn; lra].
Defined.

(** X6: the decay settles on the sustain level in finitely many ticks.
    For an envelope in Decay with a decay factor in [0,1) and a positive
    sustain level, there is a tick from which on the amplitude equals the
    sustain level, the phase still being Decay. *)
Theorem decay_settles_on_sustain (e : t) :
  current_mode e = DECAY ->
  0 <= decay_factor e < 1 ->
  0 < sustain_level e ->
  exists N : nat, forall n : nat,
    (N <= n)%nat ->
    output (ticks next n e) = sustain_level e /\
    mode (ticks next n e) = DECAY.
Proof.
  intros Hm Hd Hs. unfold output, mode.
  assert (Hinv : forall n : nat,
             envelope (ticks next n e) = sustain_level e \/
             (envelope (ticks next n e) = envelope e * decay_factor e ^ n /\
              (n <> 0%nat -> sustain_level e < envelope (ticks next n e)))).
  { induction n as [| n IH].
    - right. cbn. split; [lra | congruence].
    - destruct (ticks_factors n e) as (Hsl & _ & Hdf & _).
      pose proof (ticks_decay_mode n e Hm) as Hmn.
      cbn [ticks].
      destruct (Rle_dec (envelope (ticks next n e) * decay_factor e)
                  (sustain_level e)) as [Hle | Hgt].
      + left. rewrite next_decay_clamp; [exact Hsl | exact Hmn |].
        now rewrite Hsl, Hdf.
      + right. apply Rnot_le_lt in Hgt.
        rewrite next_decay_above; [| exact Hmn | now rewrite Hsl, Hdf].
        rewrite Hdf. destruct IH as [IH | [IH _]].
        * exfalso. rewrite IH in Hgt. nra.
        * rewrite IH in *. split; [cbn; ring |]. intros _. exact Hgt. }
  destruct (pow_lt_1_zero (decay_factor e))
    with (y := sustain_level e / (Rabs (envelope e) + 1))
    as [N HN].
  { rewrite Rabs_pos_eq; lra. }
  { apply Rdiv_lt_0_compat; [lra |]. pose proof (Rabs_pos (envelope e)). lra. }
  exists (S N). intros n Hn.
  split; [| now apply ticks_decay_mode].
  destruct (Hinv n) as [H | [He Hgt]]; [exact H |].
  exfalso.
  assert (Hn0 : n <> 0%nat) by lia. specialize (Hgt Hn0).
  specialize (HN n ltac:(lia)).
  pose proof (Rabs_pos (envelope e)) as Ha.
  assert (Hb : Rabs (envelope e * decay_factor e ^ n) < sustain_level e).
  { rewrite Rabs_mult.
    apply Rle_lt_trans
      with ((Rabs (envelope e) + 1) * Rabs (decay_factor e ^ n)).
    - pose proof (Rabs_pos (decay_factor e ^ n)). nra.
    - apply Rlt_le_trans
        with ((Rabs (envelope e) + 1)
              * (sustain_level e / (Rabs (envelope e) + 1))).
      + apply Rmult_lt_compat_l; lra.
      + right. field. lra. }
  rewrite He in Hgt.
  pose proof (Rle_abs (envelope e * decay_factor e ^ n)). lra.
Qed.

Lemma decay_settles_on_sustain_witness :
  exists N : nat, forall n : nat,
    (N <= n)%nat ->
    output (ticks next n (mk DECAY 1 0.8 1 0.5 0.5)) = 0.8.
Proof.
  destruct (decay_settles_on_sustain (mk DECAY 1 0.8 1 0.5 0.5))
    as [N HN].
  - reflexivity.
  - cbn. lra.
  - cbn. lra.
  - exists N. intros n Hn. apply (HN n Hn).
Defined.

End EnvelopeRuns.

(** ** The resampler: pitch, exact frames, bounds *)

Section ResamplerUse.

Import Resample.

(** X7: the pitch offset is absolute, not cumulative: a second
    [pitchOffset] replaces the first; 0 cents gives the base speed, 1200
    cents more double the speed, and a positive base speed stays
    positive. *)
Theorem pitchOffset_is_absolute (r : t) (c c' : R) :
  pitchOffset c' (pitchOffset c r) = pitchOffset c' r /\
  speedup (pitchOffset 0 r) = multiplier r /\
  speedup (pitchOffset (c + 1200) r) = 2 * speedup (pitchOffset c r) /\
  (0 < multiplier r -> 0 < speedup (pitchOffset c r)).
Proof.
  split; [reflexivity |]. split; [| split].
  - cbn. rewrite Rmult_0_l, Rpower_O by lra. lra.
  - cbn. unfold OCTAVE_CENTILES.
    replace ((c + 1200) * (1 / 1200)) with (c * (1 / 1200) + 1) by lra.
    rewrite Rpower_plus, Rpower_1 by lra. ring.
  - intros Hm. cbn. apply Rmult_lt_0_compat; [exact Hm |].
    unfold Rpower. apply exp_pos.
Qed.

Lemma Zfloor_IZR_div (a b : Z) :
  (0 < b)%Z -> Zfloor (IZR a / IZR b) = (a / b)%Z.
Proof.
  intros Hb. apply Zfloor_eq.
  pose proof (Z.div_mod a b ltac:(lia)) as Hdm.
  pose proof (Z.mod_pos_bound a b Hb) as [Hr0 Hr1].
  assert (HB : 0 < IZR b) by now apply IZR_lt.
  assert (Ha : IZR a = IZR b * IZR (a / b) + IZR (a mod b))
    by (rewrite <- mult_IZR, <- plus_IZR; now f_equal).
  apply IZR_le in Hr0. apply IZR_lt in Hr1.
  split.
  - apply Rmult_le_reg_r with (IZR b); [exact HB |].
    replace (IZR a / IZR b * IZR b) with (IZR a) by (field; lra). lra.
  - apply Rmult_lt_reg_r with (IZR b); [exact HB |].
    replace (IZR a / IZR b * IZR b) with (IZR a) by (field; lra). lra.
Qed.

(** X8: at a whole-number index the output is the source sample of that
    frame, without interpolation error, as long as the next frame exists:
    below or at [loop_end] (or with looping off) it is frame [k]; past
    [loop_end], with the loop ending before the last frame, it is the
    frame [loop_bgn + (k - loop_bgn) mod (loop_end - loop_bgn)]. *)
Theorem output_at_whole_index (r : t) (k : Z) (a b : R) :
  let ad := audio_data r in
  let past := (iloop_bgn r <? iloop_end r)%Z && (iloop_end r <? k)%Z in
  let f : Z :=
    if past
    then (iloop_bgn r
          + (k - iloop_bgn r) mod (iloop_end r - iloop_bgn r))%Z
    else k in
  findex r = IZR k ->
  (0 <= k < 2 ^ 31)%Z ->
  (0 <= iloop_bgn r)%Z ->
  (if past then iloop_end r < AudioData.frames ad
   else k + 1 < AudioData.frames ad)%Z ->
  AudioData.data ad (f * AudioData.channels ad + ichannel r) = Some a ->
  AudioData.data ad ((f + 1) * AudioData.channels ad + ichannel r) = Some b ->
  output r = Some a.
Proof.
  intros ad past f Hx Hk Hlb Hcase Ha Hb.
  destruct past eqn:Hfold; subst past.
  - apply andb_true_iff in Hfold as [H1 H2].
    apply Z.ltb_lt in H1, H2.
    assert (Hpast : IZR (iloop_end r) < findex r)
      by (rewrite Hx; now apply IZR_lt).
    rewrite output_fold; [| lia | exact Hpast | rewrite Hx; apply IZR_lt; lia].
    assert (Hl : loops r = ((k - iloop_bgn r) / (iloop_end r - iloop_bgn r))%Z).
    { unfold loops. rewrite Hx, <- minus_IZR. apply Zfloor_IZR_div. lia. }
    assert (Hf : folded r = IZR f).
    { unfold folded. rewrite Hl, Hx, <- minus_IZR. f_equal. subst f.
      pose proof (Z.div_mod (k - iloop_bgn r) (iloop_end r - iloop_bgn r)
                    ltac:(lia)). lia. }
    pose proof (Z.mod_pos_bound (k - iloop_bgn r)
                  (iloop_end r - iloop_bgn r) ltac:(lia)) as Hm.
    unfold folded_output. rewrite Hf, ZfloorZ. fold ad.
    replace (AudioData.frames ad =? f)%Z with false
      by (symmetry; apply Z.eqb_neq; subst f; lia).
    replace (f + 1 <? AudioData.frames ad)%Z with true
      by (symmetry; apply Z.ltb_lt; subst f; lia).
    rewrite Ha, Hb. f_equal. lra.
  - subst f. unfold output. rewrite (position_plain r k).
    + fold ad.
      replace (k + 1 <? AudioData.frames ad)%Z with true
        by (symmetry; apply Z.ltb_lt; lia).
      rewrite Ha, Hb. f_equal. rewrite Hx. lra.
    + apply andb_false_iff in Hfold as [H | H].
      * now rewrite H.
      * apply Z.ltb_ge in H. rewrite Rltb_false, andb_false_r;
          [reflexivity | rewrite Hx; now apply IZR_le].
    + rewrite Hx. apply IZR_le. lia.
    + rewrite Hx. lra.
Qed.

Lemma output_at_whole_index_witness :
  output (next (reset (ctor (AudioData.mk [5; 6; 7] 3 44100 1) 0 1 0 0)))
  = Some 6.
Proof.
  apply (output_at_whole_index _ 1 6 7).
  - cbn. lra.
  - lia.
  - cbn. lia.
  - cbn. lia.
  - reflexivity.
  - reflexivity.
Defined.

Lemma lerp_between (a b w : R) :
  0 <= w <= 1 -> Rmin a b <= (1 - w) * a + b * w <= Rmax a b.
Proof.
  intros Hw. unfold Rmin, Rmax. destruct (Rle_dec a b); nra.
Qed.

(** A well-formed source: the buffer holds frames times channels
    samples. *)
Lemma data_in_bounds (ad : AudioData.t) (f c : Z) :
  length (AudioData.fdata ad)
    = Z.to_nat (AudioData.frames ad * AudioData.channels ad) ->
  (0 <= f < AudioData.frames ad)%Z ->
  (0 <= c < AudioData.channels ad)%Z ->
  is_Some (AudioData.data ad (f * AudioData.channels ad + c)).
Proof.
  intros Hlen Hf Hc. unfold AudioData.data.
  replace (_ <? 0)%Z with false by (symmetry; apply Z.ltb_ge; nia).
  apply lookup_lt_is_Some_2. rewrite Hlen. nia.
Qed.

(** X9: a looping resampler whose loop ends before the last frame of a
    well-formed source never reads outside the buffer and never
    overshoots: at every index from 0 up to the range of the [(int)]
    cast, [output()] yields a value, and that value lies within any
    bounds around 0 that hold for all samples of the source. *)
Theorem looping_output_is_safe (r : t) (lo hi : R) :
  let ad := audio_data r in
  length (AudioData.fdata ad)
    = Z.to_nat (AudioData.frames ad * AudioData.channels ad) ->
  (0 <= ichannel r < AudioData.channels ad)%Z ->
  (0 <= iloop_bgn r < iloop_end r)%Z ->
  (iloop_end r < AudioData.frames ad)%Z ->
  0 <= findex r < IZR (2 ^ 31) ->
  Forall (fun x => lo <= x <= hi) (AudioData.fdata ad) ->
  lo <= 0 <= hi ->
  exists v : R, output r = Some v /\ lo <= v <= hi.
Proof.
  intros ad Hlen Hch Hloop Hfr Hx Hall H0.
  assert (Hread : forall f : Z,
             (0 <= f < AudioData.frames ad)%Z ->
             exists x, AudioData.data ad
                         (f * AudioData.channels ad + ichannel r) = Some x
                       /\ lo <= x <= hi).
  { intros f Hf.
    destruct (data_in_bounds ad f (ichannel r) Hlen Hf Hch) as [x Hdx].
    exists x. split; [exact Hdx |].
    unfold AudioData.data in Hdx.
    destruct (_ <? 0)%Z; [discriminate |].
    rewrite Forall_lookup in Hall. exact (Hall _ _ Hdx). }
  assert (Hlerp : forall (i : Z) (p : R),
             (0 <= i)%Z -> (i + 1 < AudioData.frames ad)%Z ->
             IZR i <= p < IZR i + 1 ->
             exists v,
               match AudioData.data ad (i * AudioData.channels ad + ichannel r),
                     AudioData.data ad
                       ((i + 1) * AudioData.channels ad + ichannel r) with
               | Some init, Some end_ =>
                   Some ((1 - (p - IZR i)) * init + end_ * (p - IZR i))
               | _, _ => None
               end = Some v /\ lo <= v <= hi).
  { intros i p Hi0 Hi1 Hp.
    destruct (Hread i ltac:(lia)) as (x & -> & Hxr).
    destruct (Hread (i + 1)%Z ltac:(lia)) as (y & -> & Hyr).
    eexists. split; [reflexivity |].
    pose proof (lerp_between x y (p - IZR i) ltac:(lra)) as Hb.
    unfold Rmin, Rmax in Hb. destruct (Rle_dec x y); lra. }
  destruct (Rlt_dec (IZR (iloop_end r)) (findex r)) as [Hpast | Hnot].
  - rewrite output_fold by (try lia; lra).
    destruct (folded_range r Hloop Hpast) as [[Hlo Hhi] _].
    unfold folded_output. fold ad.
    set (i := Zfloor (folded r)).
    assert (Hi : (iloop_bgn r <= i < iloop_end r)%Z).
    { split; [now apply Zfloor_lub | now apply Zfloor_lt]. }
    replace (AudioData.frames ad =? i)%Z with false
      by (symmetry; apply Z.eqb_neq; lia).
    replace (i + 1 <? AudioData.frames ad)%Z with true
      by (symmetry; apply Z.ltb_lt; lia).
    apply Hlerp; [lia | lia |]. apply Zfloor_bound.
  - apply Rnot_lt_le in Hnot.
    unfold output. rewrite (position_plain r (Zfloor (findex r))).
    + fold ad. set (i := Zfloor (findex r)).
      assert (Hi : (0 <= i <= iloop_end r)%Z).
      { split; [apply Zfloor_lub; lra |].
        apply Z.lt_succ_r, Zfloor_lt. rewrite succ_IZR. lra. }
      destruct (i + 1 <? AudioData.frames ad)%Z eqn:He.
      * apply Z.ltb_lt in He. apply Hlerp; [lia | lia |]. apply Zfloor_bound.
      * replace (AudioData.frames ad =? i)%Z with false
          by (symmetry; apply Z.eqb_neq; lia).
        exists 0. split; [reflexivity | exact H0].
    + rewrite Rltb_false by exact Hnot. apply andb_false_r.
    + lra.
    + apply Zfloor_bound.
Qed.

Lemma looping_output_is_safe_witness :
  exists v : R,
    output (ticks next 9 (ctor (AudioData.mk [1; -1; 1; -1] 4 44100 1) 0 1 0 2))
    = Some v /\ -1 <= v <= 1.
Proof.
  apply looping_output_is_safe.
  - reflexivity.
  - cbn. lia.
  - cbn. lia.
  - cbn. lia.
  - calc.
  - repeat constructor; lra.
  - lra.
Defined.

Lemma ticks_next_findex (n : nat) (r : t) :
  ticks next n r = set_findex (findex r + INR n * speedup r) r.
Proof.
  induction n as [| n IH]; cbn [ticks].
  - destruct r. unfold set_findex. cbn. f_equal. lra.
  - rewrite IH, S_INR. unfold next, set_findex. cbn. f_equal. ring.
Qed.

(** X10: past [loop_end] the output repeats every
    (loop_end - loop_bgn) / speed samples: [n] calls of [next()] that
    advance the index by exactly the loop length give the same
    [output()]. *)
Theorem looping_output_period_in_samples (r : t) (n : nat) :
  (0 <= iloop_bgn r < iloop_end r)%Z ->
  IZR (iloop_end r) < findex r ->
  INR n * speedup r = IZR (iloop_end r - iloop_bgn r) ->
  findex r + IZR (iloop_end r - iloop_bgn r) < IZR (2 ^ 31) ->
  output (ticks next n r) = output r.
Proof.
  intros Hloop Hpast Hn Hmax.
  rewrite ticks_next_findex, Hn. now apply output_periodic.
Qed.

Lemma looping_output_period_in_samples_witness :
  let r :=
    ticks next 3 (ctor (AudioData.mk [1; 2; 3; 4] 4 44100 1) 0 0.5 1 2) in
  output (ticks next 2 r) = output r.
Proof.
  intros r. apply looping_output_period_in_samples.
  - cbn. lia.
  - calc.
  - calc.
  - calc.
Defined.

End ResamplerUse.

(** ** The voice pool: retrigger, release, patch change, silence *)

Section PoolUse.

Import WavetableSynth.

Variable load : string -> AudioData.t.
Variable phase0 : Resample.t.

Lemma scan_loop_open_absent (l : list Note) (note : Z) (count : nat)
    (i idx idx' : Z) :
  (0 <= i)%Z ->
  scan_loop l note count i idx = Open idx' ->
  forall (j : Z) (n : Note),
    (i <= j < i + Z.of_nat count)%Z ->
    l !! Z.to_nat j = Some n -> key n <> note.
Proof.
  revert i idx. induction count as [| c IH]; intros i idx Hi H j n Hj Hn;
    [lia |].
  cbn [scan_loop] in H.
  destruct (l !! Z.to_nat i) as [m |] eqn:Hm.
  - destruct (key m =? note)%Z eqn:Hk; [discriminate |].
    destruct (decide (j = i)) as [-> | Hne].
    + rewrite Hm in Hn. injection Hn as <-. now apply Z.eqb_neq.
    + apply (IH (i + 1)%Z _ ltac:(lia) H j n); [lia | exact Hn].
  - exfalso. apply lookup_ge_None in Hm.
    apply lookup_lt_Some in Hn. lia.
Qed.

(** A voice that holds the key stops the scan. *)
Lemma scans_present (s : t) (note : Z) :
  wf s ->
  Exists (fun n => key n = note) (playing s) ->
  exists j : Z, scans s note = Held j.
Proof.
  intros (Hlen & Hnew & _) Hex.
  destruct (scans s note) as [j | idx] eqn:Hs; [now exists j |].
  exfalso. apply Exists_exists in Hex as (n & Hin & Hk).
  apply list_elem_of_lookup in Hin as [i Hi].
  pose proof (lookup_lt_Some _ _ _ Hi) as Hlt. rewrite Hlen in Hlt.
  unfold scans in Hs.
  destruct (scan_loop _ _ _ (newest s) _) as [j | idx1] eqn:H1;
    [discriminate |].
  assert (H0 : (0 <= newest s)%Z) by lia.
  destruct (decide (newest s <= Z.of_nat i)%Z) as [Hge | Hlow].
  - apply (scan_loop_open_absent _ _ _ _ _ _ H0 H1 (Z.of_nat i) n).
    + unfold MAX_NOTES in *. lia.
    + now rewrite Nat2Z.id.
    + exact Hk.
  - apply (scan_loop_open_absent _ _ _ _ _ _ (Z.le_refl 0) Hs (Z.of_nat i) n).
    + lia.
    + now rewrite Nat2Z.id.
    + exact Hk.
Qed.

(** X11: a note-on for a key that a voice already holds retriggers that
    voice and uses no other slot.  The voice keeps its key, instrument,
    sample source, loop and speed; its velocity is refreshed, its
    envelope restarts in Attack at amplitude 0 and its resampler index
    returns to 0.  Every other slot, the keys of the pool and ["newest"]
    are unchanged. *)
Theorem noteOn_retriggers_held_key (s : t) (chan note velocity : Z) :
  wf s ->
  Exists (fun n => key n = (note * 100)%Z) (playing s) ->
  let s' := onNoteOn load chan note velocity s in
  exists (j : nat) (n : Note),
    playing s !! j = Some n /\ key n = (note * 100)%Z /\
    playing s' !! j = Some (retrigger velocity n) /\
    key (retrigger velocity n) = key n /\
    inst (retrigger velocity n) = inst n /\
    vel (retrigger velocity n) = IZR velocity * RATIO_7BIT /\
    ADSR.mode (env (retrigger velocity n)) = ADSR.ATTACK /\
    ADSR.output (env (retrigger velocity n)) = 0 /\
    phase (retrigger velocity n) = Resample.set_findex 0 (phase n) /\
    (forall j' : nat, j' <> j -> playing s' !! j' = playing s !! j') /\
    key <$> playing s' = key <$> playing s /\
    newest s' = newest s.
Proof.
  intros Hwf Hex s'.
  destruct (scans_present s (note * 100) Hwf Hex) as [i Hi].
  destruct (scans_held s (note * 100) i) as (n & Hn & Hk);
    [apply Hwf | exact Hi |].
  assert (Hs' : s' = at_slot i (retrigger velocity) s).
  { subst s'. unfold onNoteOn.
    change (note * CENTS_SCALE)%Z with (note * 100)%Z. now rewrite Hi. }
  exists (Z.to_nat i), n. rewrite Hs'. cbn [at_slot playing set_playing].
  split; [exact Hn |]. split; [exact Hk |].
  split; [now rewrite list_lookup_alter_eq, Hn |].
  do 6 (split; [reflexivity |]).
  split; [intros j' Hj'; now apply list_lookup_alter_ne |].
  split; [| reflexivity].
  apply list_eq. intros j'. rewrite !list_lookup_fmap.
  destruct (decide (Z.to_nat i = j')) as [<- | Hne].
  - now rewrite list_lookup_alter_eq, Hn.
  - now rewrite list_lookup_alter_ne.
Qed.

(** *** Ticks never activate a voice *)

Lemma key_repitch (c : R) (n : Note) : key (repitch c n) = key n.
Proof. reflexivity. Qed.

Lemma env_repitch (c : R) (n : Note) : env (repitch c n) = env n.
Proof. reflexivity. Qed.

(** The voice of a slot after one tick of the pool: [Note::next()] of the
    voice, possibly re-pitched first. *)
Lemma next_lookup (s : t) (j : nat) (n : Note) :
  playing s !! j = Some n ->
  exists n0 : Note,
    playing (next s) !! j = Some (Note_next n0) /\
    key n0 = key n /\ env n0 = env n /\ vel n0 = vel n /\ inst n0 = inst n.
Proof.
  intros Hn. unfold next. destruct (Reqb 0 (vibrato s)).
  - exists n. cbn. rewrite list_lookup_fmap, Hn. now repeat split.
  - eexists (repitch _ n). cbn. rewrite !list_lookup_fmap, Hn.
    split; [reflexivity | now repeat split].
Qed.

Lemma key_Note_next_cases (n : Note) :
  key (Note_next n) = key n \/ key (Note_next n) = (-1)%Z.
Proof.
  unfold Note_next. destruct (key n =? -1)%Z; [now left |].
  destruct (ADSR.mode (env n)); try (now left).
  destruct (Rltb _ _); [now right | now left].
Qed.

Lemma output_all_inactive (s : t) :
  Forall (fun n => (key n < 0)%Z) (playing s) -> output s = Some 0.
Proof.
  intros H. unfold output.
  assert (Hf : forall a : R,
             exists b : R,
               foldl (fun acc n =>
                        match acc with
                        | None => None
                        | Some a0 =>
                            if (key n <? 0)%Z then Some (a0 + 0)
                            else match Note_output n with
                                 | Some x => Some (a0 + x)
                                 | None => None
                                 end
                        end) (Some a) (playing s) = Some b /\ b = a).
  { induction H as [| n l Hn _ IH]; intros a; cbn.
    - now exists a.
    - apply Z.ltb_lt in Hn. rewrite Hn.
      destruct (IH (a + 0)) as (b & Hb & ->). exists (a + 0).
      split; [exact Hb | lra]. }
  destruct (Hf 0) as (b & -> & ->). f_equal. lra.
Qed.

(** X12: a tick never activates a voice.  Over any number of [next()]
    calls the key of every slot either stays as it was or has become -1,
    and an inactive slot stays inactive; a pool whose voices are all
    inactive stays so, and its [output()] is 0 after every tick. *)
Theorem ticks_never_activate (k : nat) (s : t) :
  (forall (j : nat) (n : Note),
     playing s !! j = Some n ->
     exists n' : Note,
       playing (ticks next k s) !! j = Some n' /\
       (key n' = key n \/ key n' = (-1)%Z) /\
       (key n = (-1)%Z -> key n' = (-1)%Z)) /\
  (Forall (fun n => key n = (-1)%Z) (playing s) ->
   Forall (fun n => key n = (-1)%Z) (playing (ticks next k s)) /\
   output (ticks next k s) = Some 0).
Proof.
  assert (H : forall (j : nat) (n : Note),
             playing s !! j = Some n ->
             exists n' : Note,
               playing (ticks next k s) !! j = Some n' /\
               (key n' = key n \/ key n' = (-1)%Z) /\
               (key n = (-1)%Z -> key n' = (-1)%Z)).
  { induction k as [| k IH]; intros j n Hn; cbn [ticks].
    - exists n. split; [exact Hn |]. split; [now left | tauto].
    - destruct (IH j n Hn) as (n1 & Hn1 & Hk1 & Hoff).
      destruct (next_lookup _ j n1 Hn1) as (n0 & Hn0 & Hk0 & _).
      exists (Note_next n0). split; [exact Hn0 |].
      destruct (key_Note_next_cases n0) as [Hc | Hc]; rewrite Hc, ?Hk0.
      + split; [exact Hk1 | exact Hoff].
      + split; [now right | reflexivity]. }
  split; [exact H |].
  intros Hall.
  assert (Hall' : Forall (fun n => key n = (-1)%Z) (playing (ticks next k s))).
  { apply Forall_lookup. intros j n' Hn'.
    assert (Hlen : length (playing (ticks next k s)) = length (playing s)).
    { clear. induction k as [| k IH]; cbn [ticks]; [reflexivity |].
      rewrite <- IH. unfold next.
      destruct (Reqb 0 _); cbn; now rewrite ?length_fmap. }
    destruct (lookup_lt_is_Some_2 (playing s) j) as [n Hn].
    { rewrite <- Hlen. now apply lookup_lt_Some in Hn'. }
    destruct (H j n Hn) as (n1 & Hn1 & _ & Hoff).
    rewrite Hn' in Hn1. injection Hn1 as <-.
    apply Hoff. rewrite Forall_lookup in Hall. exact (Hall _ _ Hn). }
  split; [exact Hall' |].
  apply output_all_inactive. eapply Forall_impl; [exact Hall' |].
  cbn. intros n ->. lia.
Qed.

(** *** Patch change *)

Lemma Voice_of_Z_instrument (value : Z) :
  (0 <= value)%Z -> Voice_of_Z (Z.rem value 3) <> Max.
Proof.
  intros H. pose proof (Z.rem_bound_pos value 3 H ltac:(lia)) as Hb.
  assert (Hc : Z.rem value 3 = 0%Z \/ Z.rem value 3 = 1%Z
               \/ Z.rem value 3 = 2%Z) by lia.
  destruct Hc as [-> | [-> | ->]]; discriminate.
Qed.

(** X13: a patch change cuts every note.  For a program number that is not
    negative the new patch is one of the three instruments (the number
    modulo 3); afterwards every voice is inactive with velocity 0 and
    carries the new patch, [output()] is 0, and the number of voices and
    ["newest"] are as before. *)
Theorem patchChange_silences_pool (s : t) (chan value : Z) :
  (0 <= value)%Z ->
  let s' := onPatchChange load phase0 chan value s in
  patch s' = Voice_of_Z (value mod 3) /\
  patch s' <> Max /\
  Forall (fun n => key n = (-1)%Z /\ vel n = 0 /\ inst n = patch s')
    (playing s') /\
  output s' = Some 0 /\
  length (playing s') = length (playing s) /\
  newest s' = newest s.
Proof.
  intros Hv s'.
  assert (Hall : Forall (fun n => key n = (-1)%Z /\ vel n = 0
                                  /\ inst n = patch s') (playing s')).
  { subst s'. unfold onPatchChange. cbn [playing patch].
    rewrite Forall_fmap. apply Forall_forall. intros n _. cbn.
    unfold Note_ctor.
    now rewrite (key_Play load), (vel_Play load), (inst_Play load). }
  split; [subst s'; cbn; now rewrite Z.rem_mod_nonneg by lia |].
  split; [now apply Voice_of_Z_instrument |].
  split; [exact Hall |].
  split; [| split; [subst s'; cbn; now rewrite length_fmap | reflexivity]].
  apply output_all_inactive. eapply Forall_impl; [exact Hall |].
  cbn. intros n (-> & _). lia.
Qed.

(** *** Pitch wheel *)

Lemma repitch_repitch (c c' : R) (n : Note) :
  repitch c' (repitch c n) = repitch c' n.
Proof. reflexivity. Qed.

Lemma phase_Play_speed (rate0 : R) (n : Note) :
  inst n <> Max ->
  Resample.speedup (phase (Play load rate0 n))
  = Resample.multiplier (phase (Play load rate0 n))
    * Rpower 2 ((IZR (key n) - A440_CENTS) * Resample.OCTAVE_CENTILES).
Proof.
  intros Hi. unfold Play. destruct (inst n); try reflexivity;
    [| contradiction].
  repeat (destruct (_ <? _)%Z; [reflexivity |]). reflexivity.
Qed.

(** X14: the pitch wheel sets an absolute bend.  A pitch-wheel change
    replaces an earlier one; it gives every voice the speed
    base x 2^((bend + key - 6900) / 1200) with bend = value x 200 cents,
    whatever offset the voice had before, and changes nothing else of
    the voice; at the centre position (value 0) a voice that [Play] has
    given a sample returns to the speed it had at note-on. *)
Theorem pitchWheel_sets_absolute_bend (s : t) (chan chan' : Z) (v v' : R) :
  let s' := onPitchWheelChange chan v s in
  onPitchWheelChange chan' v' s' = onPitchWheelChange chan' v' s /\
  bend s' = v * 200 /\
  (forall (j : nat) (n : Note),
     playing s !! j = Some n ->
     exists n' : Note,
       playing s' !! j = Some n' /\
       Resample.speedup (phase n')
       = Resample.multiplier (phase n)
         * Rpower 2 ((v * 200 + IZR (key n) - 6900) / 1200) /\
       n' = set_phase (phase n') n /\
       Resample.findex (phase n') = Resample.findex (phase n)) /\
  (forall (rate0 : R) (n : Note),
     inst n <> Max ->
     Resample.speedup (phase (repitch (0 * CENTS_RANGE) (Play load rate0 n)))
     = Resample.speedup (phase (Play load rate0 n))).
Proof.
  intros s'. split; [| split; [| split]].
  - subst s'. unfold onPitchWheelChange. cbn. f_equal.
    rewrite <- list_fmap_compose. apply list_fmap_ext.
    intros i n _. reflexivity.
  - cbn. unfold CENTS_RANGE, CENTS_SCALE. lra.
  - intros j n Hn. eexists. subst s'. unfold onPitchWheelChange.
    cbn [playing]. rewrite list_lookup_fmap, Hn.
    split; [reflexivity |]. split; [| split; reflexivity].
    cbn. f_equal. f_equal.
    unfold CENTS_RANGE, CENTS_SCALE, A440_CENTS, Resample.OCTAVE_CENTILES.
    lra.
  - intros rate0 n Hi. rewrite phase_Play_speed by exact Hi.
    cbn [repitch phase set_phase Resample.pitchOffset Resample.speedup].
    rewrite (key_Play load). f_equal. f_equal. f_equal. lra.
Qed.

(** *** The invariant of reachable states *)

Import PoolInvariant.

Lemma voice_envelope_ctor (rate0 : R) :
  voice_envelope rate0 (ADSR.ctor 0.01 600 0.8 4 rate0).
Proof.
  unfold voice_envelope. cbn. rewrite Reqb_false by lra.
  repeat split; lra.
Qed.

Lemma voice_envelope_in_range (rate0 : R) (e : ADSR.t) :
  0 <= rate0 -> voice_envelope rate0 e -> EnvelopeRun.in_range e.
Proof.
  intros Hr (H1 & H2 & H3 & H4 & H5). unfold EnvelopeRun.in_range.
  rewrite H1, H2, H3, H4.
  split; [now apply H5 |]. split; [lra |].
  split; [left; apply linearDegradeRate_pos; lra |].
  split; apply expDegradeRate_range; lra.
Qed.

Lemma voice_envelope_apply (rate0 : R) (o : EnvelopeRun.op) (e : ADSR.t) :
  voice_envelope rate0 e -> voice_envelope rate0 (EnvelopeRun.apply o e).
Proof.
  intros He. pose proof He as (H1 & H2 & H3 & H4 & H5).
  assert (Hf : ADSR.sustain_level (EnvelopeRun.apply o e) = ADSR.sustain_level e
               /\ ADSR.attack_increment (EnvelopeRun.apply o e)
                  = ADSR.attack_increment e
               /\ ADSR.decay_factor (EnvelopeRun.apply o e)
                  = ADSR.decay_factor e
               /\ ADSR.release_factor (EnvelopeRun.apply o e)
                  = ADSR.release_factor e).
  { destruct o; [apply next_factors | now repeat split | now repeat split]. }
  destruct Hf as (G1 & G2 & G3 & G4).
  unfold voice_envelope. rewrite G1, G2, G3, G4.
  repeat (split; [assumption |]).
  intros Hr.
  apply (in_range_apply o e). now apply (voice_envelope_in_range rate0).
Qed.

Lemma voice_envelope_Note_next (rate0 : R) (n : Note) :
  voice_envelope rate0 (env n) -> voice_envelope rate0 (env (Note_next n)).
Proof.
  intros He. unfold Note_next. destruct (key n =? -1)%Z; [exact He |].
  pose proof (voice_envelope_apply rate0 EnvelopeRun.Next (env n) He) as Hn.
  destruct (ADSR.mode (env n)); try exact Hn.
  destruct (Rltb _ _); [exact He | exact Hn].
Qed.

Lemma voices_ok_at_slot (i : Z) (f : Note -> Note) (s : t) :
  (forall n, voice_envelope (rate s) (env n) ->
             voice_envelope (rate s) (env (f n))) ->
  voices_ok s -> voices_ok (at_slot i f s).
Proof.
  intros Hf H. unfold voices_ok, at_slot. cbn.
  apply Forall_alter; [exact H |]. intros n _. apply Hf.
Qed.

Lemma voices_ok_reachable (s : t) : reachable load phase0 s -> voices_ok s.
Proof.
  induction 1 as [R0 | s _ IH | s c v _ IH | s c v _ IH | s c nt v _ IH
                  | s c v _ IH | s c v _ IH | s c v _ IH].
  - unfold voices_ok, ctor. cbn [playing rate].
    apply Forall_replicate. unfold Note_ctor. rewrite (env_Play load).
    apply voice_envelope_ctor.
  - unfold voices_ok in *. unfold next.
    destruct (Reqb 0 (vibrato s)); cbn; rewrite ?Forall_fmap;
      (eapply Forall_impl; [exact IH |]); intros n Hn; cbn;
      apply (voice_envelope_Note_next (rate s)); exact Hn.
  - exact IH.
  - unfold voices_ok in *. unfold onNoteOff. cbn. rewrite Forall_fmap.
    eapply Forall_impl; [exact IH |]. intros n Hn. cbn.
    destruct (key n =? _)%Z; [| exact Hn].
    exact (voice_envelope_apply (rate s) EnvelopeRun.SustainOff _ Hn).
  - unfold onNoteOn. destruct (scans s _) as [i | idx].
    + apply voices_ok_at_slot; [| exact IH]. intros n Hn.
      exact (voice_envelope_apply (rate s) EnvelopeRun.Reset _ Hn).
    + unfold assign.
      match goal with
      | |- voices_ok (set_newest ?i ?x) => assert (Hx : voices_ok x);
                                            [| exact Hx]
      end.
      apply voices_ok_at_slot.
      { intros n Hn.
        exact (voice_envelope_apply _ EnvelopeRun.Reset _ Hn). }
      apply voices_ok_at_slot.
      { intros n Hn. now rewrite (env_Play load). }
      repeat (apply voices_ok_at_slot; [intros n Hn; exact Hn |]).
      exact IH.
  - unfold voices_ok, onPatchChange. cbn. rewrite Forall_fmap.
    apply Forall_forall. intros n _. cbn. unfold Note_ctor.
    rewrite (env_Play load). apply voice_envelope_ctor.
  - unfold voices_ok in *. unfold onPitchWheelChange. cbn.
    rewrite Forall_fmap. eapply Forall_impl; [exact IH |]. now intros n Hn.
  - exact IH.
Qed.

Lemma TWO_PI_pos : 0 < TWO_PI.
Proof. unfold TWO_PI. pose proof PI_RGT_0. lra. Qed.

Lemma rate_reachable (s : t) :
  reachable load phase0 s ->
  exists R0 : Z, rate s = IZR R0 /\ dphase s = REV_TO_HZ / IZR R0.
Proof.
  induction 1 as [R0 | s _ IH | s c v _ IH | s c v _ IH | s c nt v _ IH
                  | s c v _ IH | s c v _ IH | s c v _ IH];
    try exact IH.
  - now exists R0.
  - unfold next. destruct (Reqb 0 _); exact IH.
  - unfold onNoteOn. destruct (scans s _); exact IH.
Qed.

Lemma mphase_reachable (s : t) :
  reachable load phase0 s ->
  0 <= dphase s <= TWO_PI -> 0 <= mphase s <= TWO_PI.
Proof.
  pose proof TWO_PI_pos as Hpi.
  induction 1 as [R0 | s _ IH | s c v _ IH | s c v _ IH | s c nt v _ IH
                  | s c v _ IH | s c v _ IH | s c v _ IH];
    try exact IH.
  - cbn. lra.
  - unfold next. destruct (Reqb 0 _); [exact IH |]. cbn.
    intros Hd. specialize (IH Hd). unfold Rleb.
    destruct (Rle_dec _ _); lra.
  - unfold onNoteOn. destruct (scans s _); exact IH.
Qed.

(** X15: every state the synthesizer goes through, from construction on and
    under any sequence of control events and ticks, has ten voices and
    ["newest"] among their subscripts, every voice carries the current
    patch, and the envelope of every voice has the parameters of
    ADSR(0.01, 600, 0.8, 4, rate); for a non-negative sample rate the
    amplitude of every voice lies in [0,1]. *)
Theorem reachable_state_invariant (s : t) :
  reachable load phase0 s ->
  length (playing s) = 10%nat /\
  (0 <= newest s < 10)%Z /\
  Forall (fun n => inst n = patch s) (playing s) /\
  Forall (fun n => voice_envelope (rate s) (env n)) (playing s) /\
  (0 <= rate s ->
   Forall (fun n => 0 <= ADSR.output (env n) <= 1) (playing s)).
Proof.
  intros Hr. destruct (reachable_wf load phase0 s Hr) as (H1 & H2 & H3).
  pose proof (voices_ok_reachable s Hr) as H4.
  repeat (split; [assumption |]).
  intros Hrate. eapply Forall_impl; [exact H4 |].
  cbn. intros n (_ & _ & _ & _ & H). now apply H.
Qed.

(** X16: in every reachable state of a synthesizer constructed for a sample
    rate of at least 5 Hz, the modulation phase lies in [0, 2 pi]: the
    increment is 10 pi / rate and the wrap subtracts 2 pi at most once per
    tick. *)
Theorem modulation_phase_stays_wrapped (s : t) (R0 : Z) :
  reachable load phase0 s ->
  rate s = IZR R0 ->
  (5 <= R0)%Z ->
  0 <= mphase s <= TWO_PI.
Proof.
  intros Hr Hrate HR0. apply mphase_reachable; [exact Hr |].
  destruct (rate_reachable s Hr) as (R1 & H1 & H2).
  assert (R1 = R0) by (apply eq_IZR; congruence). subst R1.
  rewrite H2. unfold REV_TO_HZ. pose proof TWO_PI_pos as Hpi.
  assert (HR : 5 <= IZR R0) by now apply IZR_le.
  split.
  - apply Rmult_le_pos; [lra |]. left. apply Rinv_0_lt_compat. lra.
  - apply Rmult_le_reg_r with (IZR R0); [lra |].
    replace (5 * TWO_PI / IZR R0 * IZR R0) with (5 * TWO_PI) by (field; lra).
    nra.
Qed.

(** *** Release and reclaim *)

Lemma Note_next_release_cases (n : Note) :
  key n <> (-1)%Z ->
  ADSR.mode (env n) = ADSR.RELEASE ->
  (ADSR.output (env n) < EPSILON -> key (Note_next n) = (-1)%Z) /\
  (EPSILON <= ADSR.output (env n) ->
   key (Note_next n) = key n /\
   ADSR.mode (env (Note_next n)) = ADSR.RELEASE /\
   ADSR.envelope (env (Note_next n))
   = ADSR.envelope (env n) * ADSR.release_factor (env n) /\
   ADSR.release_factor (env (Note_next n)) = ADSR.release_factor (env n)).
Proof.
  intros Hk Hm. unfold Note_next.
  apply Z.eqb_neq in Hk. rewrite Hk, Hm. split; intros Ha.
  - now rewrite Rltb_true.
  - rewrite Rltb_false by exact Ha. cbn.
    unfold ADSR.mode in Hm. unfold ADSR.next. rewrite Hm. cbn.
    now repeat split.
Qed.

(** A voice in Release whose factor lies in [0,1) is inactive from some
    tick on. *)
Lemma release_reclaims (s : t) (j : nat) (n : Note) :
  playing s !! j = Some n ->
  ADSR.mode (env n) = ADSR.RELEASE ->
  0 <= ADSR.release_factor (env n) < 1 ->
  exists N : nat, forall m : nat,
    (N <= m)%nat ->
    exists n' : Note,
      playing (ticks next m s) !! j = Some n' /\ key n' = (-1)%Z.
Proof.
  intros Hn Hm Hrf.
  set (a0 := ADSR.envelope (env n)).
  set (rf := ADSR.release_factor (env n)) in *.
  assert (Hinv : forall m : nat,
             exists n' : Note,
               playing (ticks next m s) !! j = Some n' /\
               (key n' = (-1)%Z \/
                (ADSR.mode (env n') = ADSR.RELEASE /\
                 ADSR.envelope (env n') = a0 * rf ^ m /\
                 ADSR.release_factor (env n') = rf))).
  { induction m as [| m (n1 & Hn1 & Hc)]; cbn [ticks].
    - exists n. split; [exact Hn |]. right.
      split; [exact Hm |]. split; [cbn; unfold a0; lra | reflexivity].
    - destruct (next_lookup _ j n1 Hn1) as (n0 & Hn0 & Hk0 & He0 & _).
      exists (Note_next n0). split; [exact Hn0 |].
      destruct (decide (key n0 = (-1)%Z)) as [Hoff | Hon].
      + left. now rewrite Note_next_inactive.
      + destruct Hc as [Hc | (Hc1 & Hc2 & Hc3)]; [congruence |].
        rewrite <- He0 in Hc1, Hc2, Hc3.
        destruct (Note_next_release_cases n0 Hon Hc1) as [Hlow Hhigh].
        destruct (Rlt_dec (ADSR.output (env n0)) EPSILON) as [Hl | Hh].
        * left. now apply Hlow.
        * apply Rnot_lt_le in Hh.
          destruct (Hhigh Hh) as (_ & G1 & G2 & G3).
          right. split; [exact G1 |]. split; [| congruence].
          rewrite G2, Hc2, Hc3. cbn. ring. }
  assert (Heps : 0 < EPSILON) by (unfold EPSILON; lra).
  destruct (pow_lt_1_zero rf) with (y := EPSILON / (Rabs a0 + 1))
    as [N HN].
  { rewrite Rabs_pos_eq; lra. }
  { apply Rdiv_lt_0_compat; [lra |]. pose proof (Rabs_pos a0). lra. }
  exists (S N). intros m Hge.
  destruct m as [| m]; [lia |].
  destruct (Hinv m) as (n1 & Hn1 & Hc). cbn [ticks].
  destruct (next_lookup _ j n1 Hn1) as (n0 & Hn0 & Hk0 & He0 & _).
  exists (Note_next n0). split; [exact Hn0 |].
  destruct (decide (key n0 = (-1)%Z)) as [Hoff | Hon].
  - now rewrite Note_next_inactive.
  - destruct Hc as [Hc | (Hc1 & Hc2 & Hc3)]; [congruence |].
    rewrite <- He0 in Hc1, Hc2.
    apply (Note_next_release_cases n0 Hon Hc1).
    unfold ADSR.output. rewrite Hc2.
    specialize (HN m ltac:(lia)).
    pose proof (Rabs_pos a0) as Ha.
    apply Rle_lt_trans with (Rabs (a0 * rf ^ m)); [apply Rle_abs |].
    rewrite Rabs_mult.
    apply Rle_lt_trans with ((Rabs a0 + 1) * Rabs (rf ^ m)).
    + pose proof (Rabs_pos (rf ^ m)). nra.
    + apply Rlt_le_trans
        with ((Rabs a0 + 1) * (EPSILON / (Rabs a0 + 1))).
      * apply Rmult_lt_compat_l; lra.
      * right. field. lra.
Qed.

(** X17: a released voice is reclaimed in finite time.  In a reachable
    state of a synthesizer with a positive sample rate, after the
    note-off of a key there is a number of ticks from which on every slot
    that held the key is inactive. *)
Theorem released_voice_is_reclaimed (s : t) (chan note : Z) (j : nat)
    (n : Note) :
  reachable load phase0 s ->
  0 < rate s ->
  playing s !! j = Some n ->
  key n = (note * 100)%Z ->
  exists N : nat, forall m : nat,
    (N <= m)%nat ->
    exists n' : Note,
      playing (ticks next m (onNoteOff chan note s)) !! j = Some n' /\
      key n' = (-1)%Z.
Proof.
  intros Hr Hrate Hn Hk.
  pose proof (voices_ok_reachable s Hr) as Hok.
  unfold voices_ok in Hok. rewrite Forall_lookup in Hok.
  destruct (Hok _ _ Hn) as (_ & _ & _ & Hrf & _).
  apply (release_reclaims _ j (set_env (ADSR.sustainOff (env n)) n)).
  - unfold onNoteOff. cbn [playing set_playing].
    rewrite list_lookup_fmap, Hn. cbn.
    change (note * CENTS_SCALE)%Z with (note * 100)%Z.
    apply Z.eqb_eq in Hk. now rewrite Hk.
  - reflexivity.
  - cbn. rewrite Hrf.
    pose proof (expDegradeRate_strict 4 (rate s) ltac:(lra) Hrate). lra.
Qed.

End PoolUse.

Section PoolUseExamples.

Import WavetableSynth.

Lemma noteOn_retriggers_held_key_witness :
  let s := at_slot 1 (set_key 6000) (ctor load_quiet phase_quiet 44100) in
  newest (onNoteOn load_quiet 0 60 90 s) = newest s.
Proof.
  intros s.
  assert (Hwf : wf s).
  { apply wf_at_slot; [intros n Hn; exact Hn | apply wf_ctor]. }
  assert (Hex : Exists (fun n => key n = (60 * 100)%Z) (playing s)).
  { apply Exists_exists.
    exists (set_key 6000
              (Note_ctor load_quiet phase_quiet (-1) 0 Default 44100)).
    split; [| reflexivity].
    apply list_elem_of_lookup. exists 1%nat. reflexivity. }
  destruct (noteOn_retriggers_held_key load_quiet s 0 60 90 Hwf Hex)
    as (j & n & H).
  apply H.
Defined.

Lemma patchChange_silences_pool_witness :
  let s := onNoteOn load_quiet 0 60 100 (ctor load_quiet phase_quiet 44100) in
  patch (onPatchChange load_quiet phase_quiet 0 7 s) = Oboe /\
  output (onPatchChange load_quiet phase_quiet 0 7 s) = Some 0.
Proof.
  intros s.
  destruct (patchChange_silences_pool load_quiet phase_quiet s 0 7)
    as (H1 & _ & _ & H4 & _).
  - lia.
  - split; [exact H1 | exact H4].
Defined.

Lemma ticks_never_activate_witness :
  output (ticks next 5 (ctor load_quiet phase_quiet 44100)) = Some 0.
Proof.
  destruct (ticks_never_activate 5 (ctor load_quiet phase_quiet 44100))
    as [_ H].
  apply H. repeat constructor.
Defined.

Lemma reachable_state_invariant_witness :
  length (playing (next (ctor load_quiet phase_quiet 44100))) = 10%nat.
Proof.
  apply (reachable_state_invariant load_quiet phase_quiet).
  apply reach_next, reach_ctor.
Defined.

Lemma modulation_phase_stays_wrapped_witness :
  0 <= mphase (next (onModulationWheelChange 0 127
                       (ctor load_quiet phase_quiet 44100))) <= TWO_PI.
Proof.
  apply (modulation_phase_stays_wrapped load_quiet phase_quiet _ 44100).
  - apply reach_next, reach_mod, reach_ctor.
  - unfold next. destruct (Reqb _ _); reflexivity.
  - lia.
Defined.

Lemma released_voice_is_reclaimed_witness :
  let s := onNoteOn load_quiet 0 60 100 (ctor load_quiet phase_quiet 44100) in
  exists N : nat, forall m : nat,
    (N <= m)%nat ->
    exists n' : Note,
      playing (ticks next m (onNoteOff 0 60 s)) !! 1%nat = Some n' /\
      key n' = (-1)%Z.
Proof.
  intros s.
  pose (p := Resample.pitchOffset (6000 - A440_CENTS)
               (Resample.ctor quiet 0
                  (if Reqb (44100 / 44100) 0 then 2 else 2 * (44100 / 44100))
                  109664 169738)).
  pose (n := mkNote 6000 (100 * RATIO_7BIT) Grand p
               (ADSR.reset (ADSR.ctor 0.01 600 0.8 4 44100))).
  apply (released_voice_is_reclaimed load_quiet phase_quiet s 0 60 1 n).
  - apply reach_on, reach_ctor.
  - change (rate s) with 44100. lra.
  - reflexivity.
  - reflexivity.
Defined.

End PoolUseExamples.

(** ** MIDI messages *)

Section Midi.

Import MidiIn.

Lemma land_7F (x : Z) : (0 <= Z.land x 0x7F <= 127)%Z.
Proof.
  assert (H7 : (0 <= 7)%Z) by lia.
  pose proof (Z.land_ones x 7 H7) as E.
  change (Z.ones 7) with 127%Z in E. change (2 ^ 7)%Z with 128%Z in E.
  rewrite E.
  assert (H : (0 < 128)%Z) by lia.
  pose proof (Z.mod_pos_bound x 128 H). lia.
Qed.

Lemma land_0F (x : Z) : (0 <= Z.land x 0x0F <= 15)%Z.
Proof.
  assert (H4 : (0 <= 4)%Z) by lia.
  pose proof (Z.land_ones x 4 H4) as E.
  change (Z.ones 4) with 15%Z in E. change (2 ^ 4)%Z with 16%Z in E.
  rewrite E.
  assert (H : (0 < 16)%Z) by lia.
  pose proof (Z.mod_pos_bound x 16 H). lia.
Qed.

Lemma command_nibble (byte0 : Z) :
  (0 <= byte0 < 256)%Z ->
  (0 <= Z.shiftr byte0 4 < 16)%Z /\ Z.shiftr byte0 4 = (byte0 / 16)%Z.
Proof.
  intros H. rewrite Z.shiftr_div_pow2 by lia. change (2 ^ 4)%Z with 16%Z.
  split; [| reflexivity].
  split; [apply Z.div_pos; lia | apply Z.div_lt_upper_bound; lia].
Qed.

(** X18: a message is refused exactly when its command is not one of the
    five the loop knows: for every status byte, [dispatch] throws if and
    only if the high nibble is none of 0x8 (note off), 0x9 (note on), 0xB
    (control change), 0xC (program change), 0xE (pitch wheel); in
    particular data bytes in status position, aftertouch (0xA, 0xD) and
    system messages (0xF) throw. *)
Theorem dispatch_throws_on_unknown_command (byte0 byte1 byte2 : Z) :
  (0 <= byte0 < 256)%Z ->
  dispatch byte0 byte1 byte2 = None <->
  ~ In (byte0 / 16)%Z [8; 9; 11; 12; 14]%Z.
Proof.
  intros H0. destruct (command_nibble byte0 H0) as [Hr Hq].
  unfold dispatch. rewrite Hq in *.
  assert (Hc : In (byte0 / 16)%Z
                 [0; 1; 2; 3; 4; 5; 6; 7; 8; 9; 10; 11; 12; 13; 14; 15]%Z)
    by (cbn; lia).
  cbn [In] in Hc.
  repeat (destruct Hc as [Hc | Hc];
          [rewrite <- Hc; cbn; try destruct (_ =? _)%Z;
           (split;
            [first [discriminate | intros _ Hin; cbn in Hin; lia]
            | first [reflexivity
                    | intros Hn; exfalso; apply Hn; cbn; lia]]) |]).
  contradiction.
Qed.

Lemma dispatch_throws_on_unknown_command_witness :
  dispatch 0xA0 60 100 = None.
Proof.
  apply dispatch_throws_on_unknown_command; [lia |].
  change (0xA0 / 16)%Z with 10%Z. cbn. lia.
Defined.

Lemma dispatch_well_ranged (byte0 byte1 byte2 : Z)
    (cs : list callback) :
  dispatch byte0 byte1 byte2 = Some cs -> Forall well_ranged cs.
Proof.
  unfold dispatch.
  pose proof (land_0F byte0) as Hch.
  pose proof (land_7F byte1) as H1.
  pose proof (land_7F byte2) as H2.
  set (ch := Z.land byte0 0x0F) in *.
  set (b1 := Z.land byte1 0x7F) in *.
  set (b2 := Z.land byte2 0x7F) in *.
  assert (Hb : (- 8192 <= Z.shiftl b2 7 + b1 - Z.shiftl 1 13 <= 8191)%Z).
  { rewrite !Z.shiftl_mul_pow2 by lia.
    change (2 ^ 7)%Z with 128%Z. change (2 ^ 13)%Z with 8192%Z. lia. }
  set (b12 := (Z.shiftl b2 7 + b1 - Z.shiftl 1 13)%Z) in *.
  destruct (Z.shiftr byte0 4) as [| p | p]; try discriminate.
  do 4 (destruct p as [p | p |]; try discriminate).
  - (* 0xB: control change *)
    intros [= <-]. apply Forall_app. split.
    + destruct b1 as [| [q | q |] |]; try constructor;
        try (destruct q as [[q | q |] | q |]; try constructor);
        try (repeat constructor; cbn; lia).
    + repeat constructor; cbn; lia.
  - (* 0x9: note on *)
    destruct (b2 =? 0)%Z eqn:Hz; intros [= <-];
      repeat constructor; cbn; lia.
  - (* 0xE: pitch wheel *)
    intros [= <-]. constructor; [| constructor].
    cbn [well_ranged]. split; [lia |].
    unfold ratio16Bit. change (Z.shiftl 1 14 - 1)%Z with 16383%Z.
    destruct Hb as [Hlo Hhi]. apply IZR_le in Hlo, Hhi. lra.
  - (* 0xC: program change *)
    intros [= <-]. repeat constructor; cbn; lia.
  - (* 0x8: note off *)
    intros [= <-]. repeat constructor; cbn; lia.
Qed.

(** X19: the callbacks carry MIDI data only.  Whatever the three bytes
    are, every callback that [dispatch] invokes has a channel in 0..15
    and data values in 0..127 (the high bit of a data byte is masked
    off); a note-on callback never has velocity 0 (such a message is
    delivered as a note-off), and the pitch-wheel value lies between
    -16384/16383 and 16382/16383. *)
Theorem dispatch_delivers_midi_data (byte0 byte1 byte2 : Z)
    (cs : list callback) :
  dispatch byte0 byte1 byte2 = Some cs ->
  Forall well_ranged cs /\
  (forall ch n v : Z, In (NoteOn ch n v) cs -> v <> 0%Z).
Proof.
  intros H. pose proof (dispatch_well_ranged _ _ _ _ H) as Hall.
  split; [exact Hall |].
  intros ch n v Hin. rewrite Forall_forall in Hall.
  apply list_elem_of_In in Hin. specialize (Hall _ Hin). cbn in Hall. lia.
Qed.

Lemma dispatch_delivers_midi_data_witness :
  Forall well_ranged [NoteOff 0 60].
Proof.
  apply (dispatch_delivers_midi_data 0x90 60 0). reflexivity.
Defined.

(** X20: the pitch-wheel value.  For a pitch-wheel message the value passed
    on is (128 x msb + lsb - 8192) x 2/16383 with the two data bytes
    masked to 7 bits; it is 0 exactly at the centre position (lsb 0,
    msb 64), and it is below -1, at -16384/16383, exactly at the lowest
    position (lsb 0, msb 0). *)
Theorem pitch_wheel_value (byte0 byte1 byte2 : Z) :
  Z.shiftr byte0 4 = 0xE%Z ->
  let lsb := Z.land byte1 0x7F in
  let msb := Z.land byte2 0x7F in
  let x := IZR (128 * msb + lsb - 8192) * (2 / 16383) in
  dispatch byte0 byte1 byte2
  = Some [PitchWheelChange (Z.land byte0 0x0F) x] /\
  (x = 0 <-> (lsb = 0 /\ msb = 64)%Z) /\
  (x < -1 <-> (lsb = 0 /\ msb = 0)%Z) /\
  ((lsb = 0 /\ msb = 0)%Z -> x = - 16384 / 16383).
Proof.
  intros Hc lsb msb x.
  pose proof (land_7F byte1) as H1. pose proof (land_7F byte2) as H2.
  fold lsb in H1. fold msb in H2.
  split; [| split; [| split]].
  - unfold dispatch. rewrite Hc. cbn match. fold lsb msb.
    do 3 f_equal. unfold ratio16Bit, x.
    change (Z.shiftl 1 14 - 1)%Z with 16383%Z. f_equal. f_equal.
    rewrite !Z.shiftl_mul_pow2 by lia.
    change (2 ^ 7)%Z with 128%Z. change (2 ^ 13)%Z with 8192%Z. lia.
  - unfold x. split.
    + intros Hx.
      assert (Hz : IZR (128 * msb + lsb - 8192) = 0) by lra.
      apply eq_IZR in Hz. lia.
    + intros [E1 E2]. rewrite E1, E2. calc.
  - unfold x. split.
    + intros Hx.
      assert (Hz : IZR (2 * (128 * msb + lsb - 8192)) < IZR (-16383)).
      { rewrite mult_IZR. lra. }
      apply lt_IZR in Hz. lia.
    + intros [E1 E2]. rewrite E1, E2. calc.
  - unfold x. intros [E1 E2]. rewrite E1, E2. calc.
Qed.

Lemma pitch_wheel_value_witness :
  dispatch 0xE0 0 64
  = Some [PitchWheelChange 0 (IZR (128 * 64 + 0 - 8192) * (2 / 16383))].
Proof.
  apply (pitch_wheel_value 0xE0 0 64). reflexivity.
Defined.

End Midi.

(** ** The synthesizer driven by MIDI messages *)

Section MidiDriven.

Import WavetableSynth SynthMidi.

Variable load : string -> AudioData.t.
Variable phase0 : Resample.t.

Lemma deliver_reachable (c : MidiIn.callback) (s : t) :
  reachable load phase0 s -> reachable load phase0 (deliver load phase0 c s).
Proof.
  intros H. destruct c; cbn; try exact H; now constructor.
Qed.

Lemma controls_onNoteOn (chan note velocity : Z) (s : t) :
  controls_in_range s ->
  controls_in_range (onNoteOn load chan note velocity s).
Proof.
  intros H. unfold onNoteOn. destruct (scans s _); exact H.
Qed.

Lemma deliver_controls (c : MidiIn.callback) (s : t) :
  MidiIn.well_ranged c ->
  controls_in_range s -> controls_in_range (deliver load phase0 c s).
Proof.
  intros Hc Hs. pose proof Hs as (Hvol & Hvib & Hbend & Hmod & Hpatch).
  destruct c; cbn [deliver].
  - exact Hs.
  - now apply controls_onNoteOn.
  - destruct Hc as [_ [Hlo Hhi]]. apply IZR_le in Hlo, Hhi.
    unfold controls_in_range. cbn.
    unfold CENTS_RANGE, CENTS_SCALE, RATIO_7BIT.
    repeat split; try lra; assumption.
  - destruct Hc as [_ [Hlo Hhi]]. apply IZR_le in Hlo, Hhi.
    unfold controls_in_range. cbn. unfold RATIO_7BIT.
    repeat split; try lra; assumption.
  - exact Hs.
  - destruct Hc as [_ [Hlo _]].
    unfold controls_in_range. cbn.
    repeat split; try lra. now apply Voice_of_Z_instrument.
  - destruct Hc as [_ Hx].
    unfold controls_in_range. cbn. unfold CENTS_RANGE, CENTS_SCALE.
    repeat split; try lra; assumption.
Qed.

Lemma controls_next (s : t) : controls_in_range s -> controls_in_range (next s).
Proof.
  intros Hs. pose proof Hs as (Hvol & Hvib & Hbend & Hmod & Hpatch).
  unfold next. destruct (Reqb 0 (vibrato s)); [exact Hs |].
  unfold controls_in_range. cbn.
  repeat split; try lra; try assumption.
  - match goal with |- _ <= _ * sin ?x => pose proof (SIN_bound x) end. nra.
  - match goal with |- _ * sin ?x <= _ => pose proof (SIN_bound x) end. nra.
Qed.

(** X21: a synthesizer that is constructed and then driven by MIDI
    messages and ticks only goes through reachable states, and its
    global controls stay in range: volume in [0,1], vibrato depth in
    [0,200] cents, pitch bend between -200 x 16384/16383 and 200 cents,
    modulation in [-200,200] cents, and the patch one of the three
    instruments. *)
Theorem driven_controls_stay_in_range (s : t) :
  driven load phase0 s ->
  reachable load phase0 s /\ controls_in_range s.
Proof.
  induction 1 as [R0 | s _ [IHr IHc] | s s' b0 b1 b2 _ [IHr IHc] H0 H1 H2 Hh].
  - split; [constructor |].
    unfold controls_in_range. cbn. repeat split; try lra. discriminate.
  - split; [now constructor | now apply controls_next].
  - unfold handle in Hh.
    destruct (MidiIn.dispatch b0 b1 b2) as [cs |] eqn:Hd; [| discriminate].
    injection Hh as <-.
    pose proof (dispatch_well_ranged _ _ _ _ Hd) as Hall.
    clear Hd. revert s IHr IHc.
    induction Hall as [| c cs Hc _ IH]; intros s IHr IHc; cbn.
    + now split.
    + apply IH; [now apply deliver_reachable | now apply deliver_controls].
Qed.

End MidiDriven.

Section MidiDrivenExamples.

Import WavetableSynth SynthMidi.

Lemma driven_controls_stay_in_range_witness :
  controls_in_range (next (ctor load_quiet phase_quiet 44100)).
Proof.
  apply (driven_controls_stay_in_range load_quiet phase_quiet).
  apply driven_next, driven_ctor.
Defined.

End MidiDrivenExamples.

(** ** Audio buffers: construction, sample access, normalisation *)

Section AudioBuffer.

Import AudioData AudioDataOps.

Lemma wrap32_small (z : Z) : (0 <= z < 2 ^ 32)%Z -> wrap32 z = z.
Proof. intros H. unfold wrap32. apply Z.mod_small, H. Qed.

Lemma subscript_in_range (ad : AudioData.t) (f c : Z) :
  well_formed ad ->
  (0 <= f < frames ad)%Z -> (0 <= c < channels ad)%Z ->
  subscript ad f c = (f * channels ad + c)%Z
  /\ (0 <= f * channels ad + c < frames ad * channels ad)%Z.
Proof.
  intros (Hf & Hc & Hw & _) Hfr Hch.
  assert (0 <= f * channels ad + c < frames ad * channels ad)%Z as Hr by nia.
  split; [|exact Hr]. unfold subscript.
  rewrite (wrap32_small (f * channels ad)) by nia.
  apply wrap32_small. lia.
Qed.

Lemma sample_in_range (ad : AudioData.t) (f c : Z) :
  well_formed ad ->
  (0 <= f < frames ad)%Z -> (0 <= c < channels ad)%Z ->
  sample ad f c = Some (at_ (fdata ad) (c + f * channels ad)).
Proof.
  intros Hwf Hfr Hch.
  destruct (subscript_in_range ad f c Hwf Hfr Hch) as [E Hr].
  pose proof Hwf as (_ & _ & _ & Hlen).
  unfold sample, data. rewrite E.
  destruct (Z.ltb_spec (f * channels ad + c) 0) as [Hn|_]; [lia|].
  unfold at_. replace (c + f * channels ad)%Z with (f * channels ad + c)%Z
    by lia.
  destruct (lookup_lt_is_Some_2 (fdata ad) (Z.to_nat (f * channels ad + c)))
    as [x Hx]; [lia|].
  rewrite Hx. f_equal. symmetry. apply nth_lookup_Some, Hx.
Qed.

Lemma well_formed_ctor (nframes R0 nchannels : Z) :
  (0 <= nframes)%Z -> (0 <= nchannels)%Z ->
  (nframes * nchannels < 2 ^ 32)%Z ->
  well_formed (ctor nframes R0 nchannels).
Proof.
  intros Hf Hc Hw. unfold well_formed, ctor, frames, channels. cbn.
  repeat split; try assumption.
  rewrite length_replicate, wrap32_small by nia. reflexivity.
Qed.

(** X22: a buffer built from a frame count and a channel count whose
    product fits an unsigned holds silence: every frame of every
    channel reads as 0. *)
Theorem constructed_buffer_is_silent (nframes R0 nchannels f c : Z) :
  (0 <= nframes)%Z -> (0 <= nchannels)%Z ->
  (nframes * nchannels < 2 ^ 32)%Z ->
  (0 <= f < nframes)%Z -> (0 <= c < nchannels)%Z ->
  sample (ctor nframes R0 nchannels) f c = Some 0.
Proof.
  intros Hf Hc Hw Hfr Hch.
  rewrite sample_in_range
    by (try apply well_formed_ctor; assumption).
  f_equal. unfold at_, ctor. cbn [fdata frames channels channel_count].
  rewrite nth_lookup.
  destruct (replicate _ 0 !! _) as [x|] eqn:E; [|reflexivity].
  apply lookup_replicate in E as [-> _]. reflexivity.
Qed.

(** X23: the accessor does not check the channel: a channel number one
    frame width too large reads the same buffer position as the next
    frame, whatever the buffer. *)
Theorem sample_channel_overrun (ad : AudioData.t) (f c : Z) :
  sample ad f (c + channels ad) = sample ad (f + 1) c.
Proof.
  unfold sample, subscript, wrap32. f_equal.
  rewrite !Z.add_mod_idemp_l by lia. f_equal. lia.
Qed.

(** X24: a write through the accessor inside the buffer is read back at
    the same frame and channel, leaves every other frame and channel as
    it was, and keeps the shape of the buffer. *)
Theorem sample_write_then_read (ad : AudioData.t) (f c : Z) (v : R) :
  well_formed ad ->
  (0 <= f < frames ad)%Z -> (0 <= c < channels ad)%Z ->
  exists ad',
    set_sample ad f c v = Some ad'
    /\ well_formed ad'
    /\ sample ad' f c = Some v
    /\ forall f' c',
         (0 <= f' < frames ad)%Z -> (0 <= c' < channels ad)%Z ->
         (f', c') <> (f, c) ->
         sample ad' f' c' = sample ad f' c'.
Proof.
  intros Hwf Hfr Hch.
  destruct (subscript_in_range ad f c Hwf Hfr Hch) as [E Hr].
  pose proof Hwf as (H1 & H2 & H3 & Hlen).
  unfold set_sample. rewrite (sample_in_range ad f c Hwf Hfr Hch).
  eexists. split; [reflexivity|].
  assert (well_formed
            (mk (<[Z.to_nat (subscript ad f c) := v]> (fdata ad))
               (frame_count ad) (sampling_rate ad) (channel_count ad)))
    as Hwf'.
  { unfold well_formed, frames, channels. cbn.
    rewrite length_insert. repeat split; assumption. }
  split; [exact Hwf'|]. split.
  - rewrite (sample_in_range _ f c Hwf' Hfr Hch). f_equal.
    unfold at_. cbn [fdata channels channel_count]. rewrite E.
    replace (c + f * channel_count ad)%Z
      with (f * channels ad + c)%Z by (unfold channels; lia).
    apply nth_lookup_Some, list_lookup_insert_eq. lia.
  - intros f' c' Hfr' Hch' Hne.
    rewrite (sample_in_range _ f' c' Hwf' Hfr' Hch').
    rewrite (sample_in_range _ f' c' Hwf Hfr' Hch'). f_equal.
    unfold at_. cbn [fdata channels channel_count]. rewrite E.
    rewrite !nth_lookup. rewrite list_lookup_insert_ne; [reflexivity|].
    unfold channels in *. intros Heq. apply Hne.
    assert (f * channel_count ad + c = c' + f' * channel_count ad)%Z
      as Hs by nia.
    assert (f = f') by nia. subst f'. f_equal. lia.
Qed.

(** *** normalize *)

Lemma at_insert (l : list R) (j s : Z) (v : R) :
  (0 <= j)%Z -> (0 <= s)%Z -> (Z.to_nat j < length l)%nat ->
  at_ (<[Z.to_nat j := v]> l) s = if (s =? j)%Z then v else at_ l s.
Proof.
  intros Hj Hs Hl. unfold at_. rewrite !nth_lookup.
  destruct (Z.eqb_spec s j) as [->|Hne].
  - rewrite list_lookup_insert_eq by exact Hl. reflexivity.
  - rewrite list_lookup_insert_ne by lia. reflexivity.
Qed.

(** Without wrap-around the loop [for (s = i; s < total; s += channels)]
    visits the samples of channel [i], frame by frame. *)
Lemma strided_no_wrap (i c f : Z) (fuel : nat) (k : Z) :
  (0 <= i < c)%Z -> (0 <= k <= f)%Z -> (f * c + c <= 2 ^ 32)%Z ->
  (f - k <= Z.of_nat fuel)%Z ->
  strided fuel (i + k * c) c (f * c)
  = (fun j => (i + j * c)%Z) <$> seqZ k (f - k).
Proof.
  revert k. induction fuel as [|n IH]; intros k Hi Hk Hw Hf.
  - assert (k = f) by lia. subst k. rewrite seqZ_nil by lia. reflexivity.
  - cbn [strided]. destruct (Z.ltb_spec (i + k * c) (f * c)) as [Hlt|Hge].
    + assert (k < f)%Z by nia.
      rewrite (seqZ_cons k (f - k)) by lia. rewrite fmap_cons. f_equal.
      replace (wrap32 (i + k * c + c)) with (i + Z.succ k * c)%Z
        by (rewrite wrap32_small by nia; lia).
      replace (Z.pred (f - k)) with (f - Z.succ k)%Z by lia.
      apply IH; lia.
    + assert (k = f) by nia. subst k. rewrite seqZ_nil by lia. reflexivity.
Qed.

Lemma strided_channel (i c f : Z) :
  (0 <= i < c)%Z -> (0 <= f)%Z -> (f * c + c <= 2 ^ 32)%Z ->
  strided (Z.to_nat (f * c)) i c (f * c)
  = (fun j => (i + j * c)%Z) <$> seqZ 0 f.
Proof.
  intros Hi Hf Hw.
  pose proof (strided_no_wrap i c f (Z.to_nat (f * c)) 0 Hi) as H.
  rewrite Z.mul_0_l, Z.add_0_r, Z.sub_0_r in H. apply H; try lia. nia.
Qed.

Lemma elem_of_channel (i c f s : Z) :
  (0 <= i < c)%Z -> (0 <= f)%Z ->
  s ∈ (fun j => (i + j * c)%Z) <$> seqZ 0 f
  <-> (0 <= s < f * c)%Z /\ (s mod c = i)%Z.
Proof.
  intros Hi Hf. rewrite list_elem_of_fmap. split.
  - intros (j & -> & Hj). apply elem_of_seqZ in Hj. split; [nia|].
    rewrite Z.mod_add by lia. apply Z.mod_small, Hi.
  - intros [Hs Hm]. exists (s / c)%Z. split.
    + pose proof (Z.div_mod s c ltac:(lia)). lia.
    + apply elem_of_seqZ. split; [apply Z.div_pos; lia|].
      rewrite Z.add_0_l. apply Z.div_lt_upper_bound; lia.
Qed.

Lemma NoDup_channel (i c f : Z) :
  (0 < c)%Z -> NoDup ((fun j => (i + j * c)%Z) <$> seqZ 0 f).
Proof.
  intros Hc. apply NoDup_fmap_2; [|apply NoDup_seqZ].
  intros x y Hxy. nia.
Qed.

Lemma visit_sum (l : list R) (i : Z) (idx : list Z) (st : stats) :
  sum (fold_left (visit l i) idx st)
  = sum st + foldr Rplus 0 (at_ l <$> idx).
Proof.
  revert st. induction idx as [|s idx IH]; intros st.
  - cbn. lra.
  - cbn [fold_left]. rewrite IH, fmap_cons. cbn [foldr].
    unfold visit. destruct (Rltb _ _); cbn [sum]; lra.
Qed.

(** The first pass leaves in [DC[i]] the mean of channel [i]. *)
Lemma measure_DC (l : list R) (f c : Z) (m : nat) (DC0 : list R)
    (st0 : stats) :
  (0 <= f)%Z -> (f * c + c <= 2 ^ 32)%Z -> (Z.of_nat m <= c)%Z ->
  length DC0 = Z.to_nat c ->
  let r := fold_left (measure l f c (f * c)) (seqZ 0 (Z.of_nat m))
             (DC0, st0) in
  length r.1 = Z.to_nat c
  /\ forall i, (0 <= i < Z.of_nat m)%Z ->
       at_ r.1 i
       = foldr Rplus 0 ((fun k => at_ l (i + k * c)%Z) <$> seqZ 0 f)
         / IZR f.
Proof.
  intros Hf Hw. induction m as [|m IH]; intros Hm Hlen.
  - cbn. split; [exact Hlen|]. intros i Hi. lia.
  - rewrite seqZ_S, fold_left_app. cbn [fold_left].
    destruct IH as [IHl IHv]; [lia|exact Hlen|].
    destruct (fold_left _ (seqZ 0 (Z.of_nat m)) (DC0, st0)) as [DC st].
    cbn [fst] in *. unfold measure. cbn [fst]. rewrite Z.add_0_l. split.
    + rewrite length_insert. exact IHl.
    + intros i Hi. rewrite at_insert by lia.
      destruct (Z.eqb_spec i (Z.of_nat m)) as [->|Hne].
      * rewrite visit_sum. cbn [sum].
        rewrite strided_channel by lia.
        rewrite <- list_fmap_compose. unfold compose. f_equal. lra.
      * apply IHv. lia.
Qed.

(** A loop that rewrites each listed position once from its own value. *)
Lemma fold_update (h : R -> R) (idx : list Z) (l : list R) :
  NoDup idx ->
  Forall (fun s => (0 <= s)%Z /\ (Z.to_nat s < length l)%nat) idx ->
  let r := fold_left (fun l0 s => <[Z.to_nat s := h (at_ l0 s)]> l0) idx l in
  length r = length l
  /\ forall s, (0 <= s)%Z ->
       at_ r s = if decide (s ∈ idx) then h (at_ l s) else at_ l s.
Proof.
  revert l. induction idx as [|s0 idx IH]; intros l Hnd Hin.
  - cbn. split; [reflexivity|]. intros s Hs.
    destruct (decide (s ∈ [])) as [Hin'|_]; [|reflexivity].
    apply elem_of_nil in Hin'. contradiction.
  - apply NoDup_cons in Hnd as [Hnot Hnd].
    apply Forall_cons in Hin as [[H0 Hl0] Hin].
    cbn [fold_left].
    destruct (IH (<[Z.to_nat s0 := h (at_ l s0)]> l) Hnd) as [IHl IHv].
    { rewrite length_insert. exact Hin. }
    rewrite length_insert in IHl. split; [exact IHl|].
    intros s Hs. rewrite (IHv s Hs), at_insert by assumption.
    destruct (Z.eqb_spec s s0) as [->|Hne].
    + destruct (decide (s0 ∈ idx)) as [Hc|_]; [contradiction|].
      destruct (decide (s0 ∈ s0 :: idx)) as [_|Hc]; [reflexivity|].
      exfalso. apply Hc. left.
    + destruct (decide (s ∈ idx)) as [Hi|Hi];
        destruct (decide (s ∈ s0 :: idx)) as [Hj|Hj]; try reflexivity.
      * exfalso. apply Hj. right. exact Hi.
      * apply elem_of_cons in Hj as [Hj|Hj]; contradiction.
Qed.

(** The second pass subtracts from every sample the [DC] entry of its
    channel. *)
Lemma recentre_all (DC l : list R) (f c : Z) (m : nat) :
  (0 <= f)%Z -> (f * c + c <= 2 ^ 32)%Z -> (Z.of_nat m <= c)%Z ->
  length l = Z.to_nat (f * c) ->
  let r := fold_left (recentre DC c (f * c)) (seqZ 0 (Z.of_nat m)) l in
  length r = length l
  /\ forall s, (0 <= s < f * c)%Z ->
       at_ r s
       = if (s mod c <? Z.of_nat m)%Z then at_ l s - at_ DC (s mod c)
         else at_ l s.
Proof.
  intros Hf Hw. induction m as [|m IH]; intros Hm Hlen.
  - rewrite seqZ_nil by lia. cbn [fold_left].
    split; [reflexivity|]. intros s Hs.
    destruct (Z.ltb_spec (s mod c) (Z.of_nat 0)) as [Hn|_]; [|reflexivity].
    pose proof (Z.mod_pos_bound s c ltac:(nia)). lia.
  - rewrite seqZ_S, fold_left_app. cbn [fold_left].
    destruct IH as [IHl IHv]; [lia|exact Hlen|].
    set (l1 := fold_left _ (seqZ 0 (Z.of_nat m)) l) in *.
    rewrite Z.add_0_l.
    assert (0 <= Z.of_nat m < c)%Z as Hmc by lia.
    assert (recentre DC c (f * c) l1 (Z.of_nat m)
            = fold_left
                (fun l0 s =>
                   <[Z.to_nat s := at_ l0 s - at_ DC (Z.of_nat m)]> l0)
                ((fun j => (Z.of_nat m + j * c)%Z) <$> seqZ 0 f) l1) as Er.
    { unfold recentre. rewrite strided_channel by lia. reflexivity. }
    rewrite Er. clear Er.
    destruct (fold_update (fun x => x - at_ DC (Z.of_nat m))
                ((fun j => (Z.of_nat m + j * c)%Z) <$> seqZ 0 f) l1)
      as [Hl Hv].
    { apply NoDup_channel. lia. }
    { apply Forall_forall. intros s Hs.
      apply (elem_of_channel _ c f s Hmc Hf) in Hs as [Hs _].
      split; [lia|]. rewrite IHl, Hlen. lia. }
    split; [rewrite Hl; exact IHl|].
    intros s Hs. rewrite Hv by lia.
    pose proof (Z.mod_pos_bound s c ltac:(lia)) as Hmod.
    destruct (decide (s ∈ _)) as [Hi|Hi].
    + apply (elem_of_channel _ c f s Hmc Hf) in Hi as [_ Hi].
      rewrite IHv by exact Hs. rewrite Hi.
      destruct (Z.ltb_spec (Z.of_nat m) (Z.of_nat m)) as [Hx|_]; [lia|].
      destruct (Z.ltb_spec (Z.of_nat m) (Z.of_nat (S m))) as [_|Hx];
        [reflexivity|lia].
    + rewrite IHv by exact Hs.
      assert (s mod c <> Z.of_nat m)%Z as Hne.
      { intros Heq. apply Hi.
        apply (elem_of_channel _ c f s Hmc Hf). split; assumption. }
      destruct (Z.ltb_spec (s mod c) (Z.of_nat m)) as [Hx|Hx];
        destruct (Z.ltb_spec (s mod c) (Z.of_nat (S m))) as [Hy|Hy];
        try reflexivity; lia.
Qed.

Lemma sum_recentred (a : Z -> R) (d g : R) (ks : list Z) :
  foldr Rplus 0 ((fun k => (a k - d) * g) <$> ks)
  = (foldr Rplus 0 (a <$> ks) - INR (length ks) * d) * g.
Proof.
  induction ks as [|k ks IH].
  - cbn. lra.
  - rewrite !fmap_cons. cbn [foldr length]. rewrite IH, S_INR. lra.
Qed.

(** What [normalize] leaves at each buffer position of a populated,
    well-formed buffer. *)
Lemma normalize_at (ad : AudioData.t) (dB : R) :
  well_formed ad -> (0 < frames ad)%Z -> (0 < channels ad)%Z ->
  (frames ad * channels ad + channels ad <= 2 ^ 32)%Z ->
  let out := normalize ad dB in
  well_formed out /\ frames out = frames ad /\ channels out = channels ad
  /\ rate out = rate ad
  /\ forall k c, (0 <= k < frames ad)%Z -> (0 <= c < channels ad)%Z ->
       at_ (fdata out) (c + k * channels ad)
       = (at_ (fdata ad) (c + k * channels ad)
          - channel_sum ad c / IZR (frames ad))
         * (Rpower 10 (dB / 20) / divisor ad).
Proof.
  intros Hwf Hf Hc Hw. pose proof Hwf as (_ & _ & Hlt & Hlen).
  unfold normalize, divisor, channel_sum.
  set (f := frames ad) in *. set (c := channels ad) in *.
  destruct (Z.eqb_spec f 0) as [E|_]; [lia|].
  destruct (Z.eqb_spec c 0) as [E|_]; [lia|]. cbn [orb].
  rewrite (wrap32_small (f * c)) by nia.
  pose proof (measure_DC (fdata ad) f c (Z.to_nat c)
                (replicate (Z.to_nat c) 0) (mkStats 0 0 0)
                ltac:(lia) Hw ltac:(lia) (length_replicate _ _)) as HDC.
  rewrite Z2Nat.id in HDC by lia. cbv zeta in HDC.
  destruct (fold_left _ (seqZ 0 c) (replicate (Z.to_nat c) 0, _))
    as [DC st].
  cbn [fst] in HDC. destruct HDC as [_ HDC].
  set (g := Rpower 10 (dB / 20) / (max st - at_ DC (channel st))).
  pose proof (recentre_all DC (fdata ad) f c (Z.to_nat c)
                ltac:(lia) Hw ltac:(lia) Hlen) as Hrc.
  rewrite Z2Nat.id in Hrc by lia. cbv zeta in Hrc.
  set (l1 := fold_left (recentre DC c (f * c)) (seqZ 0 c) (fdata ad)) in *.
  destruct Hrc as [Hl1 Hv1].
  destruct (fold_update (fun x => x * g) (seqZ 0 (f * c)) l1) as [Hl2 Hv2].
  { apply NoDup_seqZ. }
  { apply Forall_forall. intros s Hs. apply elem_of_seqZ in Hs.
    split; [lia|]. rewrite Hl1, Hlen. lia. }
  set (l2 := fold_left _ (seqZ 0 (f * c)) l1) in *.
  cbv zeta. unfold well_formed, frames, channels, rate.
  cbn [fdata frame_count channel_count sampling_rate].
  fold (frames ad) (channels ad). fold f c.
  repeat split; try reflexivity; try lia.
  intros k i Hk Hi.
  assert (0 <= i + k * c < f * c)%Z as Hs by nia.
  rewrite Hv2 by lia.
  destruct (decide (_ ∈ seqZ 0 (f * c))) as [_|Hn].
  2:{ exfalso. apply Hn, elem_of_seqZ. lia. }
  rewrite Hv1 by exact Hs.
  assert ((i + k * c) mod c = i)%Z as Hm.
  { rewrite Z.mod_add by lia. apply Z.mod_small, Hi. }
  rewrite Hm.
  destruct (Z.ltb_spec i c) as [_|Hx]; [|lia].
  rewrite HDC by exact Hi. reflexivity.
Qed.

(** X25: on a populated, well-formed buffer whose channel loops do not
    wrap around, and with a non-zero divisor (the greatest absolute
    sample less the mean of its channel), [normalize] keeps the shape
    and the rate, replaces every sample by its distance from the mean of
    its channel times one gain common to all channels, 10^(dB/20) over
    the divisor, and leaves every channel with sum 0. *)
Theorem normalize_centres_every_channel (ad : AudioData.t) (dB : R) :
  well_formed ad -> (0 < frames ad)%Z -> (0 < channels ad)%Z ->
  (frames ad * channels ad + channels ad <= 2 ^ 32)%Z ->
  divisor ad <> 0 ->
  let out := normalize ad dB in
  let gain := Rpower 10 (dB / 20) / divisor ad in
  well_formed out /\ frames out = frames ad /\ channels out = channels ad
  /\ rate out = rate ad
  /\ (forall k c, (0 <= k < frames ad)%Z -> (0 <= c < channels ad)%Z ->
        exists x,
          sample ad k c = Some x
          /\ sample out k c
             = Some ((x - channel_sum ad c / IZR (frames ad)) * gain))
  /\ (forall c, (0 <= c < channels ad)%Z -> channel_sum out c = 0).
Proof.
  intros Hwf Hf Hc Hw Hd.
  destruct (normalize_at ad dB Hwf Hf Hc Hw) as (Hwf' & Ef & Ec & Er & Hat).
  cbv zeta. repeat split; try assumption; try apply Hwf'.
  - intros k c Hk Hch. eexists. split.
    + apply sample_in_range; assumption.
    + rewrite sample_in_range by (rewrite ?Ef, ?Ec; assumption).
      rewrite Ec, Hat by assumption. reflexivity.
  - intros c Hch. unfold channel_sum at 1. rewrite Ef, Ec.
    rewrite (Forall_fmap_ext_1 _
               (fun k => (at_ (fdata ad) (c + k * channels ad)
                          - channel_sum ad c / IZR (frames ad))
                         * (Rpower 10 (dB / 20) / divisor ad))).
    2:{ apply Forall_forall. intros k Hk. apply elem_of_seqZ in Hk.
        apply Hat; [lia|exact Hch]. }
    rewrite (sum_recentred
               (fun k => at_ (fdata ad) (c + k * channels ad)%Z)).
    fold (channel_sum ad c).
    rewrite length_seqZ, INR_IZR_INZ, Z2Nat.id by lia.
    assert (IZR (frames ad) <> 0) as Hne.
    { apply not_0_IZR. lia. }
    field. split; assumption.
Qed.

Lemma AbsF_nonneg (x : R) : 0 <= AbsF x.
Proof. unfold AbsF, MaxF, Rltb. destruct (Rlt_dec (- x) x); lra. Qed.

Lemma AbsF_of_nonneg (x : R) : 0 <= x -> AbsF x = x.
Proof.
  intros H. unfold AbsF, MaxF, Rltb. destruct (Rlt_dec (- x) x); lra.
Qed.

Lemma peak_of_ext (l : list R) (c : Z) (V W : Z -> Prop) (st : stats) :
  (forall s, V s <-> W s) -> peak_of l c V st -> peak_of l c W st.
Proof.
  intros HVW [Hb Hp]. split.
  - intros s Hs. apply Hb, HVW, Hs.
  - destruct Hp as [Hp|(s & Hs & Hp)]; [left; exact Hp|].
    right. exists s. split; [apply HVW, Hs|exact Hp].
Qed.

Lemma visit_peak (l : list R) (c i : Z) (V : Z -> Prop) (st : stats)
    (s : Z) :
  (s mod c = i)%Z -> peak_of l c V st ->
  peak_of l c (fun t => V t \/ t = s) (visit l i st s).
Proof.
  intros Hs [Hb Hp]. unfold visit, Rltb.
  destruct (Rlt_dec (max st) (AbsF (at_ l s))) as [Hlt|Hge];
    split; cbn [max channel].
  - intros t [Ht| ->]; [apply Hb in Ht; lra|lra].
  - right. exists s. repeat split; [right; reflexivity|symmetry; exact Hs].
  - intros t [Ht| ->]; [apply Hb, Ht|lra].
  - destruct Hp as [Hp|(t & Ht & Hp)]; [left; exact Hp|].
    right. exists t. split; [left; exact Ht|exact Hp].
Qed.

Lemma visit_fold_peak (l : list R) (c i : Z) (idx : list Z)
    (V : Z -> Prop) (st : stats) :
  Forall (fun s => (s mod c = i)%Z) idx -> peak_of l c V st ->
  peak_of l c (fun t => V t \/ t ∈ idx) (fold_left (visit l i) idx st).
Proof.
  revert V st. induction idx as [|s idx IH]; intros V st Hidx Hp.
  - cbn [fold_left]. apply (peak_of_ext l c V); [|exact Hp].
    intros t. split; [intros Ht; left; exact Ht|].
    intros [Ht|Ht]; [exact Ht|]. apply elem_of_nil in Ht. contradiction.
  - apply Forall_cons in Hidx as [Hs Hidx]. cbn [fold_left].
    apply (peak_of_ext l c (fun t => (V t \/ t = s) \/ t ∈ idx)).
    + intros t. rewrite elem_of_cons. tauto.
    + apply IH; [exact Hidx|]. apply visit_peak; assumption.
Qed.

(** The first pass leaves in [max] the greatest absolute value of the
    channels it has gone through. *)
Lemma measure_peak (l : list R) (f c : Z) (m : nat) (DC0 : list R) :
  (0 <= f)%Z -> (f * c + c <= 2 ^ 32)%Z -> (Z.of_nat m <= c)%Z ->
  peak_of l c (fun s => (0 <= s < f * c)%Z /\ (s mod c < Z.of_nat m)%Z)
    (fold_left (measure l f c (f * c)) (seqZ 0 (Z.of_nat m))
       (DC0, mkStats 0 0 0)).2.
Proof.
  intros Hf Hw. induction m as [|m IH]; intros Hm.
  - rewrite seqZ_nil by lia. cbn [fold_left snd]. split.
    + intros s [Hs Hlt].
      pose proof (Z.mod_pos_bound s c ltac:(nia)). lia.
    + left. split; reflexivity.
  - rewrite seqZ_S, fold_left_app. cbn [fold_left].
    specialize (IH ltac:(lia)).
    destruct (fold_left _ (seqZ 0 (Z.of_nat m)) (DC0, _)) as [DC st].
    cbn [snd] in *. unfold measure. cbn [snd]. rewrite Z.add_0_l.
    assert (0 <= Z.of_nat m < c)%Z as Hmc by lia.
    rewrite strided_channel by lia.
    apply (peak_of_ext l c
             (fun t =>
                ((0 <= t < f * c)%Z /\ (t mod c < Z.of_nat m)%Z)
                \/ t ∈ (fun j => (Z.of_nat m + j * c)%Z) <$> seqZ 0 f));
      [|apply visit_fold_peak].
    + intros s. cbn beta.
      rewrite (elem_of_channel _ c f s Hmc Hf). split.
      * intros [[Hs Hlt]|[Hs Heq]]; split; lia.
      * intros [Hs Hlt].
        destruct (Z.eq_dec (s mod c)%Z (Z.of_nat m)) as [He|Hn];
          [right|left]; split; lia.
    + apply Forall_forall. intros s Hs.
      apply (elem_of_channel _ c f s Hmc Hf) in Hs. apply Hs.
    + destruct IH as [Hb Hp]. split; cbn [max channel]; assumption.
Qed.

(** The divisor of the gain: the greatest absolute value of the buffer,
    less the mean of the channel it was found in. *)
Lemma divisor_peak (ad : AudioData.t) :
  well_formed ad -> (0 < frames ad)%Z -> (0 < channels ad)%Z ->
  (frames ad * channels ad + channels ad <= 2 ^ 32)%Z ->
  exists k c,
    (0 <= k < frames ad)%Z /\ (0 <= c < channels ad)%Z
    /\ (forall k' c',
          (0 <= k' < frames ad)%Z -> (0 <= c' < channels ad)%Z ->
          AbsF (at_ (fdata ad) (c' + k' * channels ad))
          <= AbsF (at_ (fdata ad) (c + k * channels ad)))
    /\ divisor ad
       = AbsF (at_ (fdata ad) (c + k * channels ad))
         - channel_sum ad c / IZR (frames ad).
Proof.
  intros Hwf Hf Hc Hw. unfold divisor, channel_sum.
  set (f := frames ad) in *. set (c := channels ad) in *.
  rewrite (wrap32_small (f * c)) by nia.
  pose proof (measure_DC (fdata ad) f c (Z.to_nat c)
                (replicate (Z.to_nat c) 0) (mkStats 0 0 0)
                ltac:(lia) Hw ltac:(lia) (length_replicate _ _)) as HDC.
  pose proof (measure_peak (fdata ad) f c (Z.to_nat c)
                (replicate (Z.to_nat c) 0)
                ltac:(lia) Hw ltac:(lia)) as [Hb Hp].
  rewrite Z2Nat.id in HDC, Hb, Hp by lia. cbv zeta in HDC.
  destruct (fold_left _ (seqZ 0 c) (replicate (Z.to_nat c) 0, _))
    as [DC st].
  cbn [fst snd] in *. destruct HDC as [_ HDC].
  assert (forall k' c', (0 <= k' < f)%Z -> (0 <= c' < c)%Z ->
            AbsF (at_ (fdata ad) (c' + k' * c)) <= max st) as Hall.
  { intros k' c' Hk' Hc'. apply Hb. split; [nia|].
    rewrite Z.mod_add by lia. rewrite Z.mod_small; lia. }
  destruct Hp as [[Hmax Hch]|(s & [Hs _] & Hmax & Hch)].
  - exists 0%Z, 0%Z. repeat split; try lia.
    + intros k' c' Hk' Hc'.
      pose proof (Hall k' c' Hk' Hc'). pose proof (AbsF_nonneg
        (at_ (fdata ad) (0 + 0 * c))). lra.
    + rewrite Hch, HDC by lia.
      pose proof (Hall 0%Z 0%Z ltac:(lia) ltac:(lia)) as H0.
      pose proof (AbsF_nonneg (at_ (fdata ad) (0 + 0 * c))). lra.
  - pose proof (Z.mod_pos_bound s c ltac:(lia)) as Hmod.
    assert (s mod c + s / c * c = s)%Z as Es.
    { pose proof (Z.div_mod s c ltac:(lia)). lia. }
    assert (0 <= s / c < f)%Z as Hk.
    { split; [apply Z.div_pos; lia|].
      apply Z.div_lt_upper_bound; lia. }
    exists (s / c)%Z, (s mod c)%Z. rewrite Es.
    repeat split; try lia.
    + intros k' c' Hk' Hc'. rewrite <- Hmax. apply Hall; assumption.
    + rewrite Hch, HDC, Hmax by lia. reflexivity.
Qed.

(** X26: the divisor of the gain is the greatest absolute sample value of
    the buffer less the mean of the channel it was found in; when that
    sample is not negative and the divisor is not 0, [normalize] leaves
    it at exactly the requested level 10^(dB/20). *)
Theorem normalize_lifts_positive_peak_to_level (ad : AudioData.t)
    (dB : R) :
  well_formed ad -> (0 < frames ad)%Z -> (0 < channels ad)%Z ->
  (frames ad * channels ad + channels ad <= 2 ^ 32)%Z ->
  exists k c x,
    (0 <= k < frames ad)%Z /\ (0 <= c < channels ad)%Z
    /\ sample ad k c = Some x
    /\ (forall k' c' y,
          (0 <= k' < frames ad)%Z -> (0 <= c' < channels ad)%Z ->
          sample ad k' c' = Some y -> AbsF y <= AbsF x)
    /\ divisor ad = AbsF x - channel_sum ad c / IZR (frames ad)
    /\ (0 <= x -> divisor ad <> 0 ->
        sample (normalize ad dB) k c = Some (Rpower 10 (dB / 20))).
Proof.
  intros Hwf Hf Hc Hw.
  destruct (divisor_peak ad Hwf Hf Hc Hw) as (k & c & Hk & Hch & Hall & Hd).
  destruct (normalize_at ad dB Hwf Hf Hc Hw) as (Hwf' & Ef & Ec & _ & Hat).
  exists k, c, (at_ (fdata ad) (c + k * channels ad)).
  repeat split; try lia.
  - apply sample_in_range; assumption.
  - intros k' c' y Hk' Hc' Hy.
    rewrite sample_in_range in Hy by assumption.
    injection Hy as <-. apply Hall; assumption.
  - exact Hd.
  - intros Hx Hne.
    rewrite sample_in_range by (rewrite ?Ef, ?Ec; assumption).
    rewrite Ec, Hat by assumption. f_equal.
    rewrite AbsF_of_nonneg in Hd by exact Hx.
    rewrite <- Hd. field. exact Hne.
Qed.

End AudioBuffer.

Section AudioBufferExamples.

Import AudioData AudioDataOps.

Lemma well_formed_two_frames : well_formed (mk [0; 2] 2 44100 1).
Proof.
  unfold well_formed, frames, channels. cbn. repeat split; lia.
Qed.

Lemma divisor_two_frames : divisor (mk [0; 2] 2 44100 1) = 1.
Proof.
  unfold divisor, frames, channels. cbn [frame_count channel_count fdata].
  change (wrap32 (2 * 1)) with 2%Z. change (seqZ 0 1) with [0%Z].
  change (Z.to_nat 1) with 1%nat.
  cbn [fold_left replicate]. unfold measure.
  change (Z.to_nat 2) with 2%nat.
  change (strided 2 0 1 2) with [0%Z; 1%Z].
  cbn [fold_left]. unfold visit, at_.
  change (Z.to_nat 0) with 0%nat. change (Z.to_nat 1) with 1%nat.
  cbn [nth sum max channel].
  rewrite !AbsF_of_nonneg by lra.
  rewrite (Rltb_false 0 0) by lra. cbn [sum max channel].
  rewrite (Rltb_true 0 2) by lra. cbn [sum max channel].
  change (Z.to_nat 0) with 0%nat. cbn. lra.
Qed.

Lemma constructed_buffer_is_silent_witness :
  sample (ctor 2 44100 2) 1 1 = Some 0.
Proof.
  apply constructed_buffer_is_silent; lia.
Defined.

Lemma sample_write_then_read_witness :
  exists ad',
    set_sample (mk [0; 2] 2 44100 1) 1 0 5 = Some ad'
    /\ sample ad' 1 0 = Some 5
    /\ sample ad' 0 0 = sample (mk [0; 2] 2 44100 1) 0 0.
Proof.
  destruct (sample_write_then_read (mk [0; 2] 2 44100 1) 1 0 5
              well_formed_two_frames)
    as (ad' & Hset & _ & Hget & Hrest).
  - unfold frames. cbn. lia.
  - unfold channels. cbn. lia.
  - exists ad'. split; [exact Hset|]. split; [exact Hget|].
    apply Hrest.
    + unfold frames. cbn. lia.
    + unfold channels. cbn. lia.
    + intros Heq. discriminate Heq.
Defined.

Lemma normalize_centres_every_channel_witness :
  channel_sum (normalize (mk [0; 2] 2 44100 1) 0) 0 = 0.
Proof.
  assert (divisor (mk [0; 2] 2 44100 1) <> 0) as Hd.
  { rewrite divisor_two_frames. lra. }
  destruct (normalize_centres_every_channel (mk [0; 2] 2 44100 1) 0
              well_formed_two_frames)
    as (_ & _ & _ & _ & _ & Hsum).
  - unfold frames. cbn. lia.
  - unfold channels. cbn. lia.
  - unfold frames, channels. cbn. lia.
  - exact Hd.
  - apply Hsum. unfold channels. cbn. lia.
Defined.

Lemma normalize_lifts_positive_peak_to_level_witness :
  exists k c x,
    sample (mk [0; 2] 2 44100 1) k c = Some x
    /\ divisor (mk [0; 2] 2 44100 1)
       = AbsF x - channel_sum (mk [0; 2] 2 44100 1) c / 2.
Proof.
  destruct (normalize_lifts_positive_peak_to_level (mk [0; 2] 2 44100 1) 0
              well_formed_two_frames)
    as (k & c & x & _ & _ & Hx & _ & Hd & _).
  - unfold frames. cbn. lia.
  - unfold channels. cbn. lia.
  - unfold frames, channels. cbn. lia.
  - exists k, c, x. split; [exact Hx|exact Hd].
Defined.

End AudioBufferExamples.
